(** * go-merkletree-redis-store: the node codec and the Redis-backed storage

    A shallow embedding of [merkleredis.go].  Go values are modelled as
    follows.

    - [byte] is [Init.Byte.byte]; a [uint32] is an [N] below [2^32], every
      conversion and shift writing its wrap-around out.
    - [int] is 64 bits wide (amd64/arm64).  Lengths and positions never leave
      [0 .. 2^63) in this program, so they are [nat].
    - A slice [[]byte] is [option (list byte)]: [None] is the [nil] slice,
      [Some l] a non-nil slice holding [l].
    - A function that may return an [error] or panic on an index out of range
      returns a [res]: [Ok], [Err] or [Panic].  Pointer arguments ([node],
      [hash], the receivers) are taken to be non-nil and are passed by value.
    - The Redis server is explicit state ([Redis]) threaded through the
      operations of a [Storage] handle; the handle only keeps its own fields. *)

From Stdlib Require Import NArith Lia.
From Stdlib Require Import Init.Byte Strings.Byte Strings.Ascii Strings.String.
From stdpp Require Import gmap strings list.

Set Default Proof Using "Type".

(** ** Errors and results *)

(** The [error] values this package can return.  [redis_Nil] is go-redis's
    "key does not exist" reply, [redis_Err] any other failure of the client
    (network, cancelled context, ...).  [merkletree_ErrNotFound] and
    [merkletree_ErrNodeBytesBadSize] are the sentinels of the merkletree
    package, [Errorf] is [fmt.Errorf] with a constant format, and
    [storageError] is the wrapper struct of this package. *)
Inductive error : Type :=
| redis_Nil
| redis_Err (msg : string)
| merkletree_ErrNotFound
| merkletree_ErrNodeBytesBadSize
| Errorf (msg : string)
| storageError (err : error) (msg : string).

Definition newErr (err : error) (msg : string) : error := storageError err msg.

(** [storageError.Unwrap]; [None] for an error that wraps nothing. *)
Definition Unwrap (e : error) : option error :=
  match e with
  | storageError err _ => Some err
  | _ => None
  end.

(** The names the specification gives to the decoder's errors. *)
Definition CorruptHeader : error := Errorf "corrupted merkle node: invalid header".
Definition LengthOverflow : error := Errorf "corrupted merkle node: overflow".
Definition BadEntrySize : error := merkletree_ErrNodeBytesBadSize.
Definition NotFound : error := merkletree_ErrNotFound.

Inductive res (A : Type) : Type :=
| Ok (a : A)
| Err (e : error)
| Panic.
Arguments Ok {A} a.
Arguments Err {A} e.
Arguments Panic {A}.

Global Instance res_ret : MRet res := fun A a => Ok a.
Global Instance res_bind : MBind res := fun A B f m =>
  match m with
  | Ok a => f a
  | Err e => Err e
  | Panic => Panic
  end.

Global Instance res_fmap : FMap res := fun A B f m =>
  match m with
  | Ok a => Ok (f a)
  | Err e => Err e
  | Panic => Panic
  end.

(** ** Bytes, slices and 32-bit words *)

Definition byte_to_N (b : byte) : N := Byte.to_N b.

(** The conversion [byte(v)]: the low eight bits. *)
Definition to_byte (v : N) : byte := default x00 (Byte.of_N (v mod 256)).

(** The conversion [uint32(v)]. *)
Definition uint32 (v : N) : N := (v mod 2 ^ 32)%N.

(** [a << k] on a [uint32]. *)
Definition shl32 (a k : N) : N := uint32 (N.shiftl a k).

Definition bytes (s : option (list byte)) : list byte := default [] s.

(** [len(s)]; the [nil] slice has length 0. *)
Definition len (s : option (list byte)) : nat := length (bytes s).

(** [d[i]] *)
Definition index (d : list byte) (i : nat) : res byte :=
  match d !! i with
  | Some b => Ok b
  | None => Panic
  end.

(** [d[i] = b] *)
Definition store (d : list byte) (i : nat) (b : byte) : res (list byte) :=
  if decide (i < length d) then Ok (<[i:=b]> d) else Panic.

(** [d[lo:hi]].  Go lets [hi] run up to the capacity; the bound used here is
    the length, which is all the callers below ever ask for. *)
Definition slice (d : list byte) (lo hi : nat) : res (list byte) :=
  if decide (lo ≤ hi ∧ hi ≤ length d) then Ok (take (hi - lo) (drop lo d))
  else Panic.

(** The builtin [copy(dst, src)]: the first [min(len(dst), len(src))] bytes of
    [dst] are overwritten; the result is the new content of [dst]. *)
Definition copy (dst src : list byte) : list byte :=
  take (length dst) src ++ drop (length src) dst.

(** [copy(d[pos:], src)], returning the new content of [d]. *)
Definition copy_at (d : list byte) (pos : nat) (src : list byte) : res (list byte) :=
  if decide (pos ≤ length d) then Ok (take pos d ++ copy (drop pos d) src)
  else Panic.

Definition readUint32LE (d : list byte) (index_ : nat) : res N :=
  b3 ← index d (index_ + 3);
  b2 ← index d (index_ + 2);
  b1 ← index d (index_ + 1);
  b0 ← index d index_;
  Ok (N.lor (N.lor (N.lor (shl32 (byte_to_N b3) 24) (shl32 (byte_to_N b2) 16))
                   (shl32 (byte_to_N b1) 8))
            (byte_to_N b0)).

Definition writeUint32LE (d : list byte) (index_ : nat) (value : N) : res (list byte) :=
  d ← store d index_ (to_byte (N.land value 255));
  d ← store d (index_ + 1) (to_byte (N.land (N.shiftr value 8) 255));
  d ← store d (index_ + 2) (to_byte (N.land (N.shiftr value 16) 255));
  store d (index_ + 3) (to_byte (N.land (N.shiftr value 24) 255)).

(** ** The node codec *)

Record NodeItem : Type := mkNodeItem {
  Type_ : byte;
  Key : option (list byte);
  ChildL : option (list byte);
  ChildR : option (list byte);
  Entry : option (list byte)
}.

Definition bytesToNodeItem (d : list byte) : res NodeItem :=
  let dLen := length d in
  if decide (dLen < 17) then Err CorruptHeader
  else
    keyLen ← N.to_nat <$> readUint32LE d 1;
    childLLen ← N.to_nat <$> readUint32LE d 5;
    childRLen ← N.to_nat <$> readUint32LE d 9;
    entryLen ← N.to_nat <$> readUint32LE d 13;
    if decide (length d < keyLen + childLLen + childRLen + entryLen + 17)
    then Err LengthOverflow
    else
      ty ← index d 0;
      let p := 17 in
      key ← slice d p (p + keyLen);
      let p := p + keyLen in
      childL ← slice d p (p + childLLen);
      let p := p + childLLen in
      childR ← slice d p (p + childRLen);
      let p := p + childRLen in
      entry ← slice d p (p + entryLen);
      Ok {| Type_ := ty; Key := Some key; ChildL := Some childL;
            ChildR := Some childR; Entry := Some entry |}.

Definition nodeItemToBytes (n : NodeItem) : res (list byte) :=
  let d := replicate (17 + len (Key n) + len (ChildL n) + len (ChildR n)
                      + len (Entry n)) x00 in
  d ← store d 0 (Type_ n);
  let pos := 17 in
  '(d, pos) ← match Key n with
              | Some key =>
                  d ← writeUint32LE d 1 (uint32 (N.of_nat (length key)));
                  d ← copy_at d pos key;
                  Ok (d, pos + length key)
              | None => d ← writeUint32LE d 1 0; Ok (d, pos)
              end;
  '(d, pos) ← match ChildL n with
              | Some childL =>
                  d ← writeUint32LE d 5 (uint32 (N.of_nat (length childL)));
                  d ← copy_at d pos childL;
                  Ok (d, pos + length childL)
              | None => d ← writeUint32LE d 5 0; Ok (d, pos)
              end;
  '(d, pos) ← match ChildR n with
              | Some childR =>
                  d ← writeUint32LE d 9 (uint32 (N.of_nat (length childR)));
                  d ← copy_at d pos childR;
                  Ok (d, pos + length childR)
              | None => d ← writeUint32LE d 9 0; Ok (d, pos)
              end;
  match Entry n with
  | Some entry =>
      d ← writeUint32LE d 13 (uint32 (N.of_nat (length entry)));
      copy_at d pos (bytes (ChildR n))
  | None => writeUint32LE d 13 0
  end.

(** ** Declarations of the imported merkletree package *)

(** Modelled from the spec: the [TreeNode] of its data model, a node kind
    among Leaf, Middle and Empty, two optional fixed-size child hashes and an
    optional pair of hash-sized entry values.  The package
    [github.com/iden3/go-merkletree-sql/v2] that declares them is an import
    and not part of the repository: the kind codes 0, 1 and 2 and the hash
    size 32 are the ones of the version [go.mod] names; the size also shows
    in the slices [item.Entry[0:32]] and [item.Entry[32:64]] of [Node].  A
    [Hash] is a [[32]byte]: a list of bytes that is [wf_hash]. *)
Module merkletree.

Definition ElemBytesLen : nat := 32.

Definition Hash : Type := list byte.

Definition wf_hash (h : Hash) : Prop := length h = ElemBytesLen.

(** [merkletree.Hash{}] *)
Definition HashZero : Hash := replicate ElemBytesLen x00.

Definition NodeType : Type := byte.
Definition NodeTypeMiddle : NodeType := x00.
Definition NodeTypeLeaf : NodeType := x01.
Definition NodeTypeEmpty : NodeType := x02.

Record Node : Type := mkNode {
  Type_ : NodeType;
  ChildL : option Hash;
  ChildR : option Hash;
  Entry : option Hash * option Hash
}.

Definition wf_ptr (p : option Hash) : Prop :=
  match p with
  | Some h => wf_hash h
  | None => True
  end.

Definition wf_node (n : Node) : Prop :=
  wf_ptr (ChildL n) ∧ wf_ptr (ChildR n) ∧
  wf_ptr (fst (Entry n)) ∧ wf_ptr (snd (Entry n)).

End merkletree.

(** The method [Node] of [NodeItem]: the tree node a decoded item stands for. *)
Definition Node (item : NodeItem) : res merkletree.Node :=
  let node := merkletree.mkNode (Type_ item) None None (None, None) in
  let node :=
    match ChildL item with
    | Some childL =>
        merkletree.mkNode (merkletree.Type_ node)
          (Some (copy merkletree.HashZero childL))
          (merkletree.ChildR node) (merkletree.Entry node)
    | None => node
    end in
  let node :=
    match ChildR item with
    | Some childR =>
        merkletree.mkNode (merkletree.Type_ node) (merkletree.ChildL node)
          (Some (copy merkletree.HashZero childR)) (merkletree.Entry node)
    | None => node
    end in
  if decide (0 < len (Entry item)) then
    if decide (len (Entry item) ≠ 2 * merkletree.ElemBytesLen)
    then Err merkletree_ErrNodeBytesBadSize
    else
      e0 ← slice (bytes (Entry item)) 0 32;
      e1 ← slice (bytes (Entry item)) 32 64;
      Ok (merkletree.mkNode (merkletree.Type_ node) (merkletree.ChildL node)
            (merkletree.ChildR node)
            (Some (copy merkletree.HashZero e0),
             Some (copy merkletree.HashZero e1)))
  else Ok node.

(** ** [encoding/hex] *)

Definition hextable : string := "0123456789abcdef".

Definition hexdigit (v : N) : ascii :=
  default "0"%char (String.get (N.to_nat v) hextable).

Fixpoint hex_EncodeToString (src : list byte) : string :=
  match src with
  | [] => EmptyString
  | v :: src =>
      String (hexdigit (N.shiftr (byte_to_N v) 4))
        (String (hexdigit (N.land (byte_to_N v) 15)) (hex_EncodeToString src))
  end.

(** [reverseHexTable]: digits and both cases of [a-f]; [None] stands for the
    table's [0xff]. *)
Definition fromHexChar (c : ascii) : option N :=
  let n := N_of_ascii c in
  if (48 <=? n)%N && (n <=? 57)%N then Some (n - 48)%N
  else if (97 <=? n)%N && (n <=? 102)%N then Some (n - 87)%N
  else if (65 <=? n)%N && (n <=? 70)%N then Some (n - 55)%N
  else None.

(** [hex.DecodeString]; [None] is either of its errors ([InvalidByteError],
    [ErrLength]), which the callers below do not tell apart. *)
Fixpoint hex_DecodeString (s : string) : option (list byte) :=
  match s with
  | EmptyString => Some []
  | String _ EmptyString => None
  | String p (String q s) =>
      a ← fromHexChar p;
      b ← fromHexChar q;
      dst ← hex_DecodeString s;
      Some (to_byte (N.lor (N.shiftl a 4) b) :: dst)
  end.

(** ** The Redis client

    The server's keyspace, a script of what the next commands run into, and
    the log of the commands issued so far (most recent first).  Each command
    consumes the head of [faults]: [Some e] makes it fail with [e], [None]
    (or an exhausted script) lets it through.  A command that fails is
    modelled as not applied.  A server may as well have applied a [SET] whose
    reply was lost (a timeout, a cancelled context): a theorem about a failed
    write that speaks of the keyspace depends on this choice, those about the
    error returned and about the handle's cache do not. *)
Inductive Command : Type :=
| GET (key : string)
| SET (key value : string).

Record Redis : Type := mkRedis {
  kv : gmap string string;
  faults : list (option error);
  log : list Command
}.

Definition next_fault (db : Redis) : option error :=
  match faults db with
  | f :: _ => f
  | [] => None
  end.

Definition issue (c : Command) (db : Redis) : Redis :=
  mkRedis (kv db) (tail (faults db)) (c :: log db).

(** A [*redis.StringCmd] after it ran: [Err()] and [Val()]. *)
Record StringCmd : Type := mkStringCmd {
  cmd_Err : option error;
  cmd_Val : string
}.

(** [client.Get(ctx, key)] *)
Definition redis_Get (db : Redis) (key : string) : StringCmd * Redis :=
  let f := next_fault db in
  let db := issue (GET key) db in
  match f with
  | Some e => (mkStringCmd (Some e) "", db)
  | None =>
      match kv db !! key with
      | Some v => (mkStringCmd None v, db)
      | None => (mkStringCmd (Some redis_Nil) "", db)
      end
  end.

(** [client.Set(ctx, key, value, 0).Err()] *)
Definition redis_Set (db : Redis) (key value : string) : option error * Redis :=
  let f := next_fault db in
  let db := issue (SET key value) db in
  match f with
  | Some e => (Some e, db)
  | None => (None, mkRedis (<[key:=value]> (kv db)) (faults db) (log db))
  end.

(** ** The storage handle *)

Definition merkleTreeNodeBase : string := "mt_n_".
Definition merkleTreeRootBase : string := "mt_r_".

(** The [db *redis.Client] field is a pointer to the client; the state behind
    it is the [Redis] argument of every operation. *)
Record Storage : Type := mkStorage {
  nodeIdPrefix : string;
  rootId : string;
  currentRoot : option merkletree.Hash
}.

Definition NewMerkleRedisStorage (prefix : string) : Storage :=
  {| nodeIdPrefix := merkleTreeNodeBase +:+ prefix +:+ "_";
     rootId := merkleTreeRootBase +:+ prefix;
     currentRoot := None |}.

Definition getRedisNodeIdForMerkleKey (s : Storage) (key : option (list byte)) : string :=
  nodeIdPrefix s +:+ hex_EncodeToString (bytes key).

Definition Get (s : Storage) (key : option (list byte)) (db : Redis)
  : res merkletree.Node * Redis :=
  let '(res, db) := redis_Get db (getRedisNodeIdForMerkleKey s key) in
  match cmd_Err res with
  | Some redis_Nil => (Err merkletree_ErrNotFound, db)
  | Some e => (Err e, db)
  | None =>
      match hex_DecodeString (cmd_Val res) with
      | None => (Err (Errorf "corrupt key hex"), db)
      | Some d => (item ← bytesToNodeItem d; Node item, db)
      end
  end.

(** [Put] returns an [error]: [Ok tt] stands for [nil]. *)
Definition Put (s : Storage) (key : option (list byte)) (node : merkletree.Node)
    (db : Redis) : res unit * Redis :=
  let item := {| Type_ := x00; Key := key; ChildL := None; ChildR := None;
                 Entry := None |} in
  let item :=
    match merkletree.ChildL node with
    | Some h => mkNodeItem (Type_ item) (Key item) (Some (bytes (ChildL item) ++ h))
                  (ChildR item) (Entry item)
    | None => item
    end in
  let item :=
    match merkletree.ChildR node with
    | Some h => mkNodeItem (Type_ item) (Key item) (ChildL item)
                  (Some (bytes (ChildR item) ++ h)) (Entry item)
    | None => item
    end in
  let item :=
    match merkletree.Entry node with
    | (Some e0, Some e1) =>
        mkNodeItem (Type_ item) (Key item) (ChildL item) (ChildR item)
          (Some (e0 ++ e1))
    | _ => item
    end in
  match nodeItemToBytes item with
  | Ok d =>
      let '(err, db) := redis_Set db (getRedisNodeIdForMerkleKey s key)
                          (hex_EncodeToString d) in
      (match err with Some e => Err e | None => Ok tt end, db)
  | Err e => (Err e, db)
  | Panic => (Panic, db)
  end.

Definition GetRoot (s : Storage) (db : Redis)
  : res merkletree.Hash * Storage * Redis :=
  let root := merkletree.HashZero in
  match currentRoot s with
  | Some cur => (Ok (copy root cur), s, db)
  | None =>
      let '(res, db) := redis_Get db (rootId s) in
      match cmd_Err res with
      | Some redis_Nil => (Err merkletree_ErrNotFound, s, db)
      | Some e => (Err e, s, db)
      | None =>
          match hex_DecodeString (cmd_Val res) with
          | None => (Err (Errorf "corrupt root hex"), s, db)
          | Some d =>
              let cur := default merkletree.HashZero (currentRoot s) in
              let cur := copy cur d in
              (Ok (copy root cur),
               mkStorage (nodeIdPrefix s) (rootId s) (Some cur), db)
          end
      end
  end.

Definition SetRoot (s : Storage) (hash : merkletree.Hash) (db : Redis)
  : res unit * Storage * Redis :=
  let cur := default merkletree.HashZero (currentRoot s) in
  let cur := copy cur hash in
  let s := mkStorage (nodeIdPrefix s) (rootId s) (Some cur) in
  let '(err, db) := redis_Set db (rootId s) (hex_EncodeToString hash) in
  match err with
  | Some e => (Err (newErr e "failed to update current root hash"), s, db)
  | None => (Ok tt, s, db)
  end.

(** * Closed forms and vocabulary of the properties *)

(** ** Words and headers *)

(** The word [readUint32LE] assembles from four bytes. *)
Definition word32 (b0 b1 b2 b3 : byte) : N :=
  N.lor (N.lor (N.lor (shl32 (byte_to_N b3) 24) (shl32 (byte_to_N b2) 16))
               (shl32 (byte_to_N b1) 8))
        (byte_to_N b0).

(** The little-endian word [writeUint32LE] leaves in the buffer. *)
Definition le32 (v : N) : list byte :=
  [to_byte (N.land v 255); to_byte (N.land (N.shiftr v 8) 255);
   to_byte (N.land (N.shiftr v 16) 255); to_byte (N.land (N.shiftr v 24) 255)].

(** The length word of a slice: [uint32(len(s))]. *)
Definition len32 (s : option (list byte)) : N := uint32 (N.of_nat (len s)).

(** The length a slice declares after the conversion to [uint32] and back to
    [int]. *)
Definition u32len (s : option (list byte)) : nat := N.to_nat (len32 s).

(** The key and the two children of [n] fit their 32-bit length words. *)
Definition fits (n : NodeItem) : Prop :=
  (N.of_nat (len (Key n)) < 2 ^ 32)%N ∧ (N.of_nat (len (ChildL n)) < 2 ^ 32)%N ∧
  (N.of_nat (len (ChildR n)) < 2 ^ 32)%N.

(** The four lengths a buffer declares in its header, as [int]s: the locals
    [keyLen], [childLLen], [childRLen] and [entryLen] of [bytesToNodeItem]. *)
Definition declared (d : list byte) (index_ : nat) : nat :=
  match readUint32LE d index_ with
  | Ok v => N.to_nat v
  | _ => 0
  end.

Definition keyLen (d : list byte) : nat := declared d 1.

Definition childLLen (d : list byte) : nat := declared d 5.

Definition childRLen (d : list byte) : nat := declared d 9.

Definition entryLen (d : list byte) : nat := declared d 13.

(** ** The encoder in closed form *)

(** One [if n.F != nil { ... } else { ... }] block of [nodeItemToBytes]. *)
Definition put_field (hdr : nat) (f : option (list byte))
    (st : list byte * nat) : res (list byte * nat) :=
  let '(d, pos) := st in
  match f with
  | Some b =>
      d ← writeUint32LE d hdr (uint32 (N.of_nat (length b)));
      d ← copy_at d pos b;
      Ok (d, pos + length b)
  | None => d ← writeUint32LE d hdr 0; Ok (d, pos)
  end.

(** The 17-byte header [nodeItemToBytes] writes for [n]. *)
Definition header (n : NodeItem) : list byte :=
  Type_ n :: le32 (len32 (Key n)) ++ le32 (len32 (ChildL n))
          ++ le32 (len32 (ChildR n)) ++ le32 (len32 (Entry n)).

(** The bytes [nodeItemToBytes] leaves in the last [len(n.Entry)] positions of
    the buffer. *)
Definition entry_segment (n : NodeItem) : list byte :=
  copy (replicate (len (Entry n)) x00) (bytes (ChildR n)).

(** The payload that follows the header in the encoding of [n]. *)
Definition payload (n : NodeItem) : list byte :=
  bytes (Key n) ++ bytes (ChildL n) ++ bytes (ChildR n) ++ entry_segment n.

(** The buffer [nodeItemToBytes] returns. *)
Definition encoding (n : NodeItem) : list byte := header n ++ payload n.


(** ** The decoder in closed form *)

(** What [bytesToNodeItem] returns for a buffer that passes its two checks. *)
Definition decoded (d : list byte) : NodeItem :=
  {| Type_ := default x00 (d !! 0);
     Key := Some (take (keyLen d) (drop 17 d));
     ChildL := Some (take (childLLen d) (drop (17 + keyLen d) d));
     ChildR := Some (take (childRLen d) (drop (17 + keyLen d + childLLen d) d));
     Entry := Some (take (entryLen d)
                      (drop (17 + keyLen d + childLLen d + childRLen d) d)) |}.

(** ** The storage operations *)

(** The next command is not going to fail. *)
Definition goes_through (db : Redis) : Prop := next_fault db = None.

(** The item [Put] builds from its arguments.  The [Type] field of the item is
    never assigned, so it keeps the zero value. *)
Definition Put_item (key : option (list byte)) (node : merkletree.Node) : NodeItem :=
  {| Type_ := x00; Key := key;
     ChildL := merkletree.ChildL node; ChildR := merkletree.ChildR node;
     Entry := match merkletree.Entry node with
              | (Some e0, Some e1) => Some (e0 ++ e1)
              | _ => None
              end |}.

(** ** Sentences of the specification that the code does not satisfy *)

(** C2, first sentence: decoding the encoding of [n] succeeds with the bytes
    of [Key], [ChildL] and [ChildR] of [n]. *)
Definition segments_roundtrip (n : NodeItem) : Prop :=
  ∃ ni, nodeItemToBytes n ≫= bytesToNodeItem = Ok ni ∧
        bytes (Key ni) = bytes (Key n) ∧
        bytes (ChildL ni) = bytes (ChildL n) ∧
        bytes (ChildR ni) = bytes (ChildR n).

(** C2, both sentences: decoding the encoding of [n] succeeds with the bytes
    of [Key], [ChildL] and [ChildR] of [n], and [Node] on the decoded item
    gives a node whose child hashes are the children of [n]. *)
Definition roundtrip_as_stated (n : NodeItem) : Prop :=
  ∃ ni, nodeItemToBytes n ≫= bytesToNodeItem = Ok ni ∧
        bytes (Key ni) = bytes (Key n) ∧
        bytes (ChildL ni) = bytes (ChildL n) ∧
        bytes (ChildR ni) = bytes (ChildR n) ∧
        ∃ node, Node ni = Ok node ∧
                merkletree.ChildL node = ChildL n ∧
                merkletree.ChildR node = ChildR n.

(** C4: a buffer is rejected unless the declared lengths, plus 17, add up to
    exactly its length. *)
Definition exact_length_required (b : list byte) : Prop :=
  17 ≤ length b →
  17 + keyLen b + childLLen b + childRLen b + entryLen b ≠ length b →
  ∃ e, bytesToNodeItem b = Err e.

(** C7: the error of a failed store write comes back from [Put] wrapped by
    [newErr]. *)
Definition Put_wraps_store_error (s : Storage) (key : option (list byte))
    (node : merkletree.Node) (db : Redis) : Prop :=
  ∀ e, next_fault db = Some e →
       ∃ msg, (Put s key node db).1 = Err (newErr e msg).

(** ** Concrete inputs *)

Definition K32 : list byte := replicate 32 x11.

Definition A32 : merkletree.Hash := replicate 32 xaa.

Definition B32 : merkletree.Hash := replicate 32 xbb.

(** [&merkletree.Node{Type: NodeTypeLeaf, Entry: [A, B]}] *)
Definition leafAB : merkletree.Node :=
  merkletree.mkNode merkletree.NodeTypeLeaf None None (Some A32, Some B32).

Definition s_p1 : Storage := NewMerkleRedisStorage "p1".

(** An empty server that answers every command. *)
Definition db_empty : Redis := mkRedis ∅ [] [].

(** An empty server that is unreachable for the next command. *)
Definition db_down : Redis := mkRedis ∅ [Some (redis_Err "connection refused")] [].

(** A 17-byte buffer that declares a one-byte key. *)
Definition buf_overflow : list byte :=
  [x00; x01; x00; x00; x00; x00; x00; x00; x00;
   x00; x00; x00; x00; x00; x00; x00; x00].

(** An 18-byte buffer that declares a one-byte entry. *)
Definition buf_entry1 : list byte :=
  [x01; x00; x00; x00; x00; x00; x00; x00; x00;
   x00; x00; x00; x00; x01; x00; x00; x00; xaa].

(** An item whose key is [2^32] zero bytes long. *)
Definition item_4GiB_key : NodeItem :=
  mkNodeItem x00 (Some (replicate (N.to_nat (2 ^ 32)) x00)) None None None.

(** An item with a 32-byte key, a 32-byte left child and a one-byte right
    child. *)
Definition item_short_child : NodeItem :=
  mkNodeItem x00 (Some K32) (Some A32) (Some [x01]) None.

(** An item with a 32-byte key, two 32-byte children and a one-byte entry. *)
Definition item_1_byte_entry : NodeItem :=
  mkNodeItem x00 (Some K32) (Some A32) (Some B32) (Some [x01]).

(** * Proofs *)

(** ** Bytes and words *)

Lemma byte_to_N_lt (b : byte) : (byte_to_N b < 256)%N.
Proof. unfold byte_to_N. pose proof (Byte.to_N_bounded b). lia. Qed.

Lemma byte_to_N_to_byte (v : N) : byte_to_N (to_byte v) = (v mod 256)%N.
Proof.
  unfold byte_to_N, to_byte.
  destruct (Byte.of_N (v mod 256)) as [b|] eqn:E; simpl.
  - by apply Byte.to_of_N.
  - apply Byte.of_N_None_iff in E.
    pose proof (N.mod_lt v 256). lia.
Qed.

Lemma to_byte_byte_to_N (b : byte) : to_byte (byte_to_N b) = b.
Proof.
  unfold to_byte, byte_to_N.
  rewrite N.mod_small by (pose proof (Byte.to_N_bounded b); lia).
  by rewrite Byte.of_to_N.
Qed.

Lemma testbit_mod_pow2 (a n m : N) :
  N.testbit (a mod 2 ^ n) m = (m <? n)%N && N.testbit a m.
Proof.
  destruct (N.ltb_spec m n).
  - by rewrite N.mod_pow2_bits_low.
  - by rewrite N.mod_pow2_bits_high.
Qed.

Lemma testbit_shiftl (a n m : N) :
  N.testbit (N.shiftl a n) m = (n <=? m)%N && N.testbit a (m - n).
Proof.
  destruct (N.leb_spec n m).
  - by rewrite N.shiftl_spec_high'.
  - by rewrite N.shiftl_spec_low.
Qed.

Lemma testbit_octet (v k m : N) :
  N.testbit (byte_to_N (to_byte (N.land (N.shiftr v k) 255))) m
  = (m <? 8)%N && N.testbit v (m + k).
Proof.
  rewrite byte_to_N_to_byte.
  change 255%N with (N.ones 8). rewrite N.land_ones.
  change 256%N with (2 ^ 8)%N.
  rewrite !testbit_mod_pow2, N.shiftr_spec'.
  by destruct (m <? 8)%N.
Qed.

Lemma word32_lt (b0 b1 b2 b3 : byte) : (word32 b0 b1 b2 b3 < 2 ^ 32)%N.
Proof.
  assert (H : word32 b0 b1 b2 b3 = (word32 b0 b1 b2 b3 mod 2 ^ 32)%N).
  { apply N.bits_inj. intros m. rewrite testbit_mod_pow2.
    unfold word32, shl32, uint32.
    rewrite !N.lor_spec, !testbit_mod_pow2.
    destruct (N.ltb_spec m 32) as [|Hm]; [done|]. simpl.
    pose proof (byte_to_N_lt b0) as Hb.
    destruct (N.testbit (byte_to_N b0) m) eqn:E; [|done].
    exfalso. apply N.testbit_true in E.
    assert (2 ^ 8 <= 2 ^ m)%N by (apply N.pow_le_mono_r; lia).
    rewrite N.div_small in E by (change (2 ^ 8)%N with 256%N in *; lia).
    discriminate. }
  rewrite H. by apply N.mod_lt.
Qed.

(** Reading back the word [writeUint32LE] wrote gives its low 32 bits. *)
Lemma word32_le32 (v : N) :
  word32 (to_byte (N.land v 255)) (to_byte (N.land (N.shiftr v 8) 255))
         (to_byte (N.land (N.shiftr v 16) 255))
         (to_byte (N.land (N.shiftr v 24) 255)) = uint32 v.
Proof.
  apply N.bits_inj. intros m. unfold word32, shl32, uint32.
  rewrite !N.lor_spec, !testbit_mod_pow2, !testbit_shiftl, !testbit_octet.
  rewrite <- (N.shiftr_0_r v) at 4. rewrite testbit_octet, N.add_0_r.
  destruct (N.ltb_spec m 32), (N.leb_spec 24 m), (N.leb_spec 16 m),
    (N.leb_spec 8 m), (N.ltb_spec m 8), (N.ltb_spec (m - 24) 8),
    (N.ltb_spec (m - 16) 8), (N.ltb_spec (m - 8) 8);
    try lia; simpl;
    rewrite ?N.sub_add by done; rewrite ?orb_false_r; try done.
Qed.

(** ** Indexing, slicing and copying *)

Section slices.
Implicit Types d pre post src : list byte.

Lemma bind_Ok {A B} (a : A) (f : A → res B) : (Ok a ≫= f) = f a.
Proof. done. Qed.

Lemma store_Ok d i b : i < length d → store d i b = Ok (<[i:=b]> d).
Proof. intros. unfold store. by rewrite decide_True. Qed.

Lemma slice_Ok d lo hi :
  lo ≤ hi → hi ≤ length d → slice d lo hi = Ok (take (hi - lo) (drop lo d)).
Proof. intros. unfold slice. by rewrite decide_True. Qed.

Lemma writeUint32LE_at d i pre b0 b1 b2 b3 post v :
  d = pre ++ b0 :: b1 :: b2 :: b3 :: post → i = length pre →
  writeUint32LE d i v = Ok (pre ++ le32 v ++ post).
Proof.
  intros -> ->. unfold writeUint32LE.
  rewrite store_Ok, bind_Ok by (rewrite length_app; simpl; lia).
  rewrite store_Ok, bind_Ok by (rewrite length_insert, length_app; simpl; lia).
  rewrite store_Ok, bind_Ok
    by (rewrite !length_insert, length_app; simpl; lia).
  rewrite store_Ok by (rewrite !length_insert, length_app; simpl; lia).
  rewrite !insert_app_r_alt by lia.
  replace (length pre - length pre) with 0 by lia.
  replace (length pre + 1 - length pre) with 1 by lia.
  replace (length pre + 2 - length pre) with 2 by lia.
  replace (length pre + 3 - length pre) with 3 by lia.
  done.
Qed.

Lemma readUint32LE_at d i pre b0 b1 b2 b3 post :
  d = pre ++ b0 :: b1 :: b2 :: b3 :: post → i = length pre →
  readUint32LE d i = Ok (word32 b0 b1 b2 b3).
Proof.
  intros -> ->. unfold readUint32LE, index.
  rewrite !lookup_app_r by lia.
  replace (length pre - length pre) with 0 by lia.
  replace (length pre + 1 - length pre) with 1 by lia.
  replace (length pre + 2 - length pre) with 2 by lia.
  replace (length pre + 3 - length pre) with 3 by lia.
  done.
Qed.

Lemma copy_at_at d pos pre post src :
  d = pre ++ post → pos = length pre →
  copy_at d pos src = Ok (pre ++ copy post src).
Proof.
  intros -> ->. unfold copy_at. rewrite decide_True by (rewrite length_app; lia).
  by rewrite take_app_length, drop_app_length.
Qed.

Lemma copy_zeros n src :
  copy (replicate n x00) src = take n src ++ replicate (n - length src) x00.
Proof. unfold copy. by rewrite length_replicate, drop_replicate. Qed.

Lemma copy_zeros_app src k :
  copy (replicate (length src + k) x00) src = src ++ replicate k x00.
Proof.
  rewrite copy_zeros, take_ge by lia. f_equal. f_equal. lia.
Qed.

Lemma length_copy dst src : length (copy dst src) = length dst.
Proof. unfold copy. rewrite length_app, length_take, length_drop. lia. Qed.

(** Copying a 32-byte hash into a 32-byte array replaces it. *)
Lemma copy_hash dst src :
  length dst = length src → copy dst src = src.
Proof.
  intros H. unfold copy.
  rewrite take_ge, drop_ge, app_nil_r by lia. done.
Qed.

Lemma len_Some d : len (Some d) = length d.
Proof. done. Qed.

Lemma copy_nil dst : copy dst [] = dst.
Proof. unfold copy. by rewrite take_nil. Qed.
End slices.

(** ** [nodeItemToBytes] returns [encoding] *)

Lemma put_field_spec hdr f d pos h0 b0 b1 b2 b3 h1 pay rest :
  d = h0 ++ b0 :: b1 :: b2 :: b3 :: h1 ++ pay ++ replicate (len f + rest) x00 →
  hdr = length h0 →
  length h0 + 4 + length h1 = 17 →
  pos = 17 + length pay →
  put_field hdr f (d, pos)
  = Ok (h0 ++ le32 (len32 f) ++ h1 ++ (pay ++ bytes f) ++ replicate rest x00,
        17 + length (pay ++ bytes f)).
Proof.
  intros -> -> Hh ->. unfold put_field.
  destruct f as [b|];
    rewrite (writeUint32LE_at _ _ h0 b0 b1 b2 b3 _ _ eq_refl eq_refl), bind_Ok.
  - change (uint32 (N.of_nat (length b))) with (len32 (Some b)).
    set (w := le32 (len32 (Some b))).
    assert (Hpos : 17 + length pay = length (h0 ++ w ++ h1 ++ pay)).
    { rewrite !length_app. unfold w. simpl. lia. }
    rewrite (copy_at_at _ _ (h0 ++ w ++ h1 ++ pay)
               (replicate (length b + rest) x00))
      by (done || by rewrite <- !app_assoc).
    rewrite bind_Ok, copy_zeros_app.
    change (bytes (Some b)) with b.
    by rewrite length_app, <- !app_assoc, Nat.add_assoc.
  - change (len None) with 0. change (bytes None) with (@nil byte).
    change (len32 None) with 0%N. by rewrite app_nil_r.
Qed.

Lemma nodeItemToBytes_blocks (n : NodeItem) :
  nodeItemToBytes n
  = d ← store (replicate (17 + len (Key n) + len (ChildL n) + len (ChildR n)
                          + len (Entry n)) x00) 0 (Type_ n);
    '(d, pos) ← put_field 1 (Key n) (d, 17);
    '(d, pos) ← put_field 5 (ChildL n) (d, pos);
    '(d, pos) ← put_field 9 (ChildR n) (d, pos);
    match Entry n with
    | Some entry =>
        d ← writeUint32LE d 13 (uint32 (N.of_nat (length entry)));
        copy_at d pos (bytes (ChildR n))
    | None => writeUint32LE d 13 0
    end.
Proof. reflexivity. Qed.

Theorem nodeItemToBytes_eq (n : NodeItem) :
  nodeItemToBytes n
  = Ok (header n ++ bytes (Key n) ++ bytes (ChildL n) ++ bytes (ChildR n)
        ++ entry_segment n).
Proof.
  rewrite nodeItemToBytes_blocks. destruct n as [ty k l r e].
  unfold header, entry_segment. cbn [Type_ Key ChildL ChildR Entry].
  replace (17 + len k + len l + len r + len e)
    with (17 + (len k + (len l + (len r + len e)))) by lia.
  rewrite replicate_add, store_Ok
    by (rewrite length_app, !length_replicate; lia).
  rewrite insert_app_l by (rewrite length_replicate; lia).
  change (<[0:=ty]> (replicate 17 x00)) with (ty :: replicate 16 x00).
  rewrite bind_Ok.
  erewrite (put_field_spec 1 k _ _ [ty] x00 x00 x00 x00 (replicate 12 x00) []
              (len l + (len r + len e))); [|reflexivity..].
  rewrite bind_Ok; cbv beta iota.
  erewrite (put_field_spec 5 l _ _ (ty :: le32 (len32 k)) x00 x00 x00 x00
              (replicate 8 x00) ([] ++ bytes k) (len r + len e));
    [|reflexivity..].
  rewrite bind_Ok; cbv beta iota.
  erewrite (put_field_spec 9 r _ _ (ty :: le32 (len32 k) ++ le32 (len32 l))
              x00 x00 x00 x00 (replicate 4 x00) (([] ++ bytes k) ++ bytes l)
              (len e)); [|reflexivity..].
  rewrite bind_Ok; cbv beta iota.
  set (pay := (([] ++ bytes k) ++ bytes l) ++ bytes r).
  set (h := ty :: le32 (len32 k) ++ le32 (len32 l) ++ le32 (len32 r)).
  assert (Hpay : pay = bytes k ++ bytes l ++ bytes r)
    by (unfold pay; by rewrite app_nil_l, <- app_assoc).
  destruct e as [e|].
  - erewrite (writeUint32LE_at _ 13 h x00 x00 x00 x00
                (pay ++ replicate (len (Some e)) x00)); [|reflexivity..].
    rewrite bind_Ok.
    erewrite (copy_at_at _ _ (h ++ le32 (len32 (Some e)) ++ pay)
                (replicate (len (Some e)) x00)).
    + f_equal. rewrite Hpay. unfold h. by rewrite <- !app_assoc.
    + by rewrite <- !app_assoc.
    + rewrite !length_app. unfold h. rewrite length_cons, !length_app.
      simpl. lia.
  - erewrite (writeUint32LE_at _ 13 h x00 x00 x00 x00
                (pay ++ replicate (len None) x00)); [|reflexivity..].
    f_equal. rewrite Hpay. unfold h.
    change (len None) with 0. rewrite copy_zeros. simpl.
    by rewrite <- !app_assoc.
Qed.

(** ** [bytesToNodeItem] returns [decoded] *)

Lemma readUint32LE_Ok (d : list byte) (i : nat) :
  i + 3 < length d →
  ∃ b0 b1 b2 b3, readUint32LE d i = Ok (word32 b0 b1 b2 b3).
Proof.
  intros Hi. unfold readUint32LE, index.
  destruct (lookup_lt_is_Some_2 d (i + 3)) as [b3 ->]; [lia|].
  destruct (lookup_lt_is_Some_2 d (i + 2)) as [b2 ->]; [lia|].
  destruct (lookup_lt_is_Some_2 d (i + 1)) as [b1 ->]; [lia|].
  destruct (lookup_lt_is_Some_2 d i) as [b0 ->]; [lia|].
  by exists b0, b1, b2, b3.
Qed.

Lemma readUint32LE_declared (d : list byte) (i : nat) :
  i + 3 < length d → readUint32LE d i = Ok (N.of_nat (declared d i)).
Proof.
  intros Hi. unfold declared.
  destruct (readUint32LE_Ok d i Hi) as (b0 & b1 & b2 & b3 & ->).
  by rewrite N2Nat.id.
Qed.

Lemma declared_lt (d : list byte) (i : nat) :
  (N.of_nat (declared d i) < 2 ^ 32)%N.
Proof.
  unfold declared. destruct (readUint32LE d i) as [v| |] eqn:E; try done.
  unfold readUint32LE in E.
  destruct (index d (i + 3)); try done.
  destruct (index d (i + 2)); try done.
  destruct (index d (i + 1)); try done.
  destruct (index d i); try done.
  injection E as <-. rewrite N2Nat.id. apply word32_lt.
Qed.

(** A declared length is a [uint32]: four of them and the header size stay
    far below [2^63], so the [int] sum in the overflow check cannot wrap. *)
Lemma header_sum_fits_int (d : list byte) :
  (N.of_nat (keyLen d + childLLen d + childRLen d + entryLen d + 17)
   < 2 ^ 63)%N.
Proof.
  pose proof (declared_lt d 1). pose proof (declared_lt d 5).
  pose proof (declared_lt d 9). pose proof (declared_lt d 13).
  unfold keyLen, childLLen, childRLen, entryLen.
  change (2 ^ 32)%N with 4294967296%N in *.
  change (2 ^ 63)%N with 9223372036854775808%N. lia.
Qed.

Lemma bytesToNodeItem_unfold (d : list byte) :
  bytesToNodeItem d
  = if decide (length d < 17) then Err CorruptHeader
    else if decide (length d
                    < keyLen d + childLLen d + childRLen d + entryLen d + 17)
         then Err LengthOverflow
         else Ok (decoded d).
Proof.
  unfold bytesToNodeItem. case_decide as Hlen; [done|].
  rewrite !readUint32LE_declared by lia.
  cbn [fmap res_fmap mbind res_bind]. rewrite !Nat2N.id.
  fold (keyLen d) (childLLen d) (childRLen d) (entryLen d).
  case_decide as Hsum; [done|].
  unfold index. destruct (lookup_lt_is_Some_2 d 0) as [ty Hty]; [lia|].
  rewrite !slice_Ok by lia. unfold decoded. rewrite Hty.
  cbn [mbind res_bind default from_option id].
  do 2 f_equal; f_equal; f_equal; lia.
Qed.

Lemma u32len_le (s : option (list byte)) : u32len s ≤ len s.
Proof.
  unfold u32len, len32, uint32.
  pose proof (N.Div0.mod_le (N.of_nat (len s)) (2 ^ 32)). lia.
Qed.

Lemma u32len_small (s : option (list byte)) :
  (N.of_nat (len s) < 2 ^ 32)%N → u32len s = len s.
Proof.
  intros H. unfold u32len, len32, uint32. rewrite N.mod_small by done. lia.
Qed.

Lemma declared_le32 (d pre post : list byte) (i : nat) (s : option (list byte)) :
  d = pre ++ le32 (len32 s) ++ post → i = length pre →
  declared d i = u32len s.
Proof.
  intros -> ->. unfold declared.
  erewrite readUint32LE_at; [|reflexivity..].
  rewrite word32_le32. unfold u32len, len32, uint32.
  by rewrite N.Div0.mod_mod.
Qed.

Lemma length_header (n : NodeItem) : length (header n) = 17.
Proof. done. Qed.

Lemma length_entry_segment (n : NodeItem) :
  length (entry_segment n) = len (Entry n).
Proof. unfold entry_segment. by rewrite length_copy, length_replicate. Qed.

Lemma length_payload (n : NodeItem) :
  length (payload n)
  = len (Key n) + len (ChildL n) + len (ChildR n) + len (Entry n).
Proof.
  unfold payload. rewrite !length_app, length_entry_segment. unfold len. lia.
Qed.

Lemma declared_encoding (n : NodeItem) :
  keyLen (encoding n) = u32len (Key n) ∧
  childLLen (encoding n) = u32len (ChildL n) ∧
  childRLen (encoding n) = u32len (ChildR n) ∧
  entryLen (encoding n) = u32len (Entry n).
Proof.
  split_and!.
  - eapply (declared_le32 _ [Type_ n] _ 1 (Key n)); reflexivity.
  - eapply (declared_le32 _ (Type_ n :: le32 (len32 (Key n))) _ 5 (ChildL n));
      reflexivity.
  - eapply (declared_le32 _
              (Type_ n :: le32 (len32 (Key n)) ++ le32 (len32 (ChildL n)))
              _ 9 (ChildR n)); reflexivity.
  - eapply (declared_le32 _
              (Type_ n :: le32 (len32 (Key n)) ++ le32 (len32 (ChildL n))
                       ++ le32 (len32 (ChildR n))) _ 13 (Entry n));
      reflexivity.
Qed.

(** Decoding an encoding never fails: the declared lengths are the real ones
    reduced modulo [2^32], so they never exceed the buffer. *)
Theorem bytesToNodeItem_nodeItemToBytes (n : NodeItem) :
  nodeItemToBytes n ≫= bytesToNodeItem
  = Ok {| Type_ := Type_ n;
          Key := Some (take (u32len (Key n)) (payload n));
          ChildL := Some (take (u32len (ChildL n))
                            (drop (u32len (Key n)) (payload n)));
          ChildR := Some (take (u32len (ChildR n))
                            (drop (u32len (Key n) + u32len (ChildL n))
                               (payload n)));
          Entry := Some (take (u32len (Entry n))
                           (drop (u32len (Key n) + u32len (ChildL n)
                                  + u32len (ChildR n)) (payload n))) |}.
Proof.
  rewrite nodeItemToBytes_eq, bind_Ok. fold (payload n) (encoding n).
  destruct (declared_encoding n) as (Hk & Hl & Hr & He).
  set (d := encoding n) in *.
  assert (Hd : length d = 17 + length (payload n))
    by (unfold d, encoding; by rewrite length_app, length_header).
  pose proof (u32len_le (Key n)). pose proof (u32len_le (ChildL n)).
  pose proof (u32len_le (ChildR n)). pose proof (u32len_le (Entry n)).
  pose proof (length_payload n).
  rewrite bytesToNodeItem_unfold, !decide_False by lia.
  unfold decoded. rewrite Hk, Hl, Hr, He.
  assert (Hdrop : ∀ k, drop (17 + k) d = drop k (payload n)).
  { intros k. unfold d, encoding.
    rewrite drop_app_ge by (rewrite length_header; lia).
    rewrite length_header. f_equal. lia. }
  rewrite <- !Nat.add_assoc, !Hdrop.
  rewrite <- (Nat.add_0_r 17), Hdrop, drop_0. done.
Qed.

(** When the key and the children fit their 32-bit length words, the decoder
    returns these three segments as they were; the entry it returns is cut
    from [entry_segment]. *)
Lemma bytesToNodeItem_nodeItemToBytes_fits (n : NodeItem) :
  fits n →
  nodeItemToBytes n ≫= bytesToNodeItem
  = Ok {| Type_ := Type_ n; Key := Some (bytes (Key n));
          ChildL := Some (bytes (ChildL n)); ChildR := Some (bytes (ChildR n));
          Entry := Some (take (u32len (Entry n)) (entry_segment n)) |}.
Proof.
  intros (Hk & Hl & Hr). rewrite bytesToNodeItem_nodeItemToBytes.
  rewrite (u32len_small (Key n)), (u32len_small (ChildL n)),
    (u32len_small (ChildR n)) by done.
  unfold payload, len.
  generalize (bytes (Key n)) (bytes (ChildL n)) (bytes (ChildR n))
    (entry_segment n) (u32len (Entry n)).
  intros K L R E e.
  by rewrite <- !drop_drop, !drop_app_length, !take_app_length.
Qed.

(** ** Hex strings *)

Lemma hex_octet (v : byte) :
  (a ← fromHexChar (hexdigit (N.shiftr (byte_to_N v) 4));
   b ← fromHexChar (hexdigit (N.land (byte_to_N v) 15));
   Some (to_byte (N.lor (N.shiftl a 4) b))) = Some v.
Proof. destruct v; vm_compute; reflexivity. Qed.

Lemma hex_DecodeString_EncodeToString (src : list byte) :
  hex_DecodeString (hex_EncodeToString src) = Some src.
Proof.
  induction src as [|v src IH]; [done|].
  cbn [hex_EncodeToString hex_DecodeString]. rewrite IH.
  pose proof (hex_octet v) as Hv.
  destruct (fromHexChar (hexdigit (N.shiftr (byte_to_N v) 4))) as [a|];
    [|done].
  destruct (fromHexChar (hexdigit (N.land (byte_to_N v) 15))) as [b|];
    [|done].
  cbn in Hv |- *. by injection Hv as ->.
Qed.

(** ** Commands of the Redis client *)

Lemma redis_Set_None (db db' : Redis) (key value : string) :
  redis_Set db key value = (None, db') →
  goes_through db ∧ kv db' = <[key:=value]> (kv db).
Proof.
  unfold redis_Set, goes_through.
  destruct (next_fault db) as [e|]; [done|]. by intros [= <-].
Qed.

Lemma redis_Set_fault (db : Redis) (key value : string) (e : error) :
  next_fault db = Some e →
  redis_Set db key value = (Some e, issue (SET key value) db).
Proof. unfold redis_Set. by intros ->. Qed.

Lemma redis_Get_goes_through (db : Redis) (key value : string) :
  goes_through db → kv db !! key = Some value →
  redis_Get db key = (mkStringCmd None value, issue (GET key) db).
Proof.
  unfold redis_Get, goes_through. intros -> Hv.
  cbn [issue kv]. by rewrite Hv.
Qed.

(** ** Node reconstruction *)

Lemma Node_unfold (item : NodeItem) :
  Node item
  = if decide (0 < len (Entry item)) then
      if decide (len (Entry item) ≠ 2 * merkletree.ElemBytesLen)
      then Err merkletree_ErrNodeBytesBadSize
      else Ok (merkletree.mkNode (Type_ item)
                 (copy merkletree.HashZero <$> ChildL item)
                 (copy merkletree.HashZero <$> ChildR item)
                 (Some (copy merkletree.HashZero
                          (take 32 (bytes (Entry item)))),
                  Some (copy merkletree.HashZero
                          (take 32 (drop 32 (bytes (Entry item)))))))
    else Ok (merkletree.mkNode (Type_ item)
               (copy merkletree.HashZero <$> ChildL item)
               (copy merkletree.HashZero <$> ChildR item) (None, None)).
Proof.
  unfold Node. destruct item as [ty k [l|] [r|] e]; simpl;
    repeat case_decide; try done;
    unfold merkletree.ElemBytesLen, len in *;
    rewrite !slice_Ok by lia; by rewrite ?drop_0.
Qed.

(** ** [Put] followed by [Get] *)

Lemma nodeItemToBytes_encoding (n : NodeItem) :
  nodeItemToBytes n = Ok (encoding n).
Proof. apply nodeItemToBytes_eq. Qed.

Lemma Put_unfold s key node db :
  Put s key node db
  = let '(err, db) := redis_Set db (getRedisNodeIdForMerkleKey s key)
                        (hex_EncodeToString (encoding (Put_item key node))) in
    (match err with Some e => Err e | None => Ok tt end, db).
Proof.
  destruct node as [ty [l|] [r|] [[e0|] [e1|]]]; unfold Put;
    cbn [merkletree.ChildL merkletree.ChildR merkletree.Entry
         Type_ Key ChildL ChildR Entry bytes default from_option id app];
    by rewrite nodeItemToBytes_encoding.
Qed.

Lemma Put_Ok s key node db db1 :
  Put s key node db = (Ok tt, db1) →
  kv db1 !! getRedisNodeIdForMerkleKey s key
  = Some (hex_EncodeToString (encoding (Put_item key node))).
Proof.
  rewrite Put_unfold.
  destruct (redis_Set _ _ _) as [[e|] db'] eqn:E; [done|].
  intros [= <-]. apply redis_Set_None in E as [_ ->].
  apply lookup_insert_eq.
Qed.

(** [Get] after a [Put] that went through decodes the buffer [Put] encoded. *)
Lemma Put_Get_raw s key node db db1 :
  Put s key node db = (Ok tt, db1) → goes_through db1 →
  (Get s key db1).1 = (nodeItemToBytes (Put_item key node) ≫= bytesToNodeItem)
                      ≫= Node.
Proof.
  intros HP Hg. unfold Get.
  rewrite (redis_Get_goes_through _ _ _ Hg (Put_Ok _ _ _ _ _ HP)).
  cbn [cmd_Err cmd_Val]. rewrite hex_DecodeString_EncodeToString.
  by rewrite nodeItemToBytes_encoding.
Qed.

Lemma len_Put_item_child (p : option merkletree.Hash) :
  merkletree.wf_ptr p → len p = 0 ∨ len p = 32.
Proof. destruct p as [h|]; [by right|by left]. Qed.

Lemma len_Put_item_Entry key node :
  merkletree.wf_node node →
  len (Entry (Put_item key node)) = 0 ∨ len (Entry (Put_item key node)) = 64.
Proof.
  intros (_ & _ & H0 & H1). unfold Put_item. simpl.
  destruct (merkletree.Entry node) as [[e0|] [e1|]]; simpl in *; auto.
  right. unfold len, bytes; simpl. rewrite length_app.
  unfold merkletree.wf_hash, merkletree.ElemBytesLen in *. lia.
Qed.

Lemma u32len_0 (s : option (list byte)) : len s = 0 → u32len s = 0.
Proof. intros H. rewrite u32len_small; rewrite H; [done|]. done. Qed.

Lemma u32len_32 (s : option (list byte)) : len s = 32 → u32len s = 32.
Proof. intros H. rewrite u32len_small; rewrite H; [done|]. done. Qed.

Lemma u32len_64 (s : option (list byte)) : len s = 64 → u32len s = 64.
Proof. intros H. rewrite u32len_small; rewrite H; [done|]. done. Qed.

(** Whatever the key, a stored node comes back: with the node type byte 0,
    and with both child pointers set. *)
Lemma Put_Get_any_key s key node db db1 :
  merkletree.wf_node node →
  Put s key node db = (Ok tt, db1) → goes_through db1 →
  ∃ got, (Get s key db1).1 = Ok got ∧
    merkletree.Type_ got = x00 ∧
    is_Some (merkletree.ChildL got) ∧ is_Some (merkletree.ChildR got) ∧
    (merkletree.ChildL node = None →
     merkletree.ChildL got = Some merkletree.HashZero) ∧
    (merkletree.ChildR node = None →
     merkletree.ChildR got = Some merkletree.HashZero).
Proof.
  intros Hwf HP Hg. rewrite (Put_Get_raw _ _ _ _ _ HP Hg).
  rewrite bytesToNodeItem_nodeItemToBytes, bind_Ok.
  set (item := Put_item key node). set (P := payload item).
  pose proof (u32len_le (Key item)) as Hk.
  pose proof (length_payload item) as HP'. fold P in HP'.
  destruct Hwf as (HL & HR & HE0 & HE1).
  assert (HE : u32len (Entry item) = len (Entry item) ∧
               (len (Entry item) = 0 ∨ len (Entry item) = 64)).
  { destruct (len_Put_item_Entry key node) as [H|H]; [done|..];
      fold item in H; split; auto;
      [by rewrite u32len_0, H|by rewrite u32len_64, H]. }
  destruct HE as [HE HE'].
  assert (HLl : u32len (ChildL item) = len (ChildL item)).
  { change (ChildL item) with (merkletree.ChildL node).
    destruct (len_Put_item_child _ HL) as [H|H];
      [by rewrite u32len_0, H|by rewrite u32len_32, H]. }
  assert (HRl : u32len (ChildR item) = len (ChildR item)).
  { change (ChildR item) with (merkletree.ChildR node).
    destruct (len_Put_item_child _ HR) as [H|H];
      [by rewrite u32len_0, H|by rewrite u32len_32, H]. }
  rewrite Node_unfold. cbn [Entry Type_ ChildL ChildR fmap option_fmap option_map].
  assert (Hlen : len (Some (take (u32len (Entry item))
                   (drop (u32len (Key item) + u32len (ChildL item)
                          + u32len (ChildR item)) P)))
                 = len (Entry item)).
  { rewrite len_Some, length_take, length_drop. lia. }
  rewrite Hlen. unfold merkletree.ElemBytesLen.
  assert (HnL : merkletree.ChildL node = None →
                copy merkletree.HashZero
                  (take (u32len (ChildL item)) (drop (u32len (Key item)) P))
                = merkletree.HashZero).
  { intros HN. unfold item at 1, Put_item. cbn [ChildL]. rewrite HN.
    by rewrite u32len_0, take_0, copy_nil. }
  assert (HnR : merkletree.ChildR node = None →
                copy merkletree.HashZero
                  (take (u32len (ChildR item))
                     (drop (u32len (Key item) + u32len (ChildL item)) P))
                = merkletree.HashZero).
  { intros HN. unfold item at 1, Put_item. cbn [ChildR]. rewrite HN.
    by rewrite u32len_0, take_0, copy_nil. }
  destruct HE' as [H0|H64]; [rewrite H0|rewrite H64]; simpl decide;
    repeat case_decide; try lia; eexists; (split; [reflexivity|]);
    cbn [merkletree.Type_ merkletree.ChildL merkletree.ChildR];
    (split_and!; [done|by eexists|by eexists|
                  by intros Hn; rewrite (HnL Hn)|
                  by intros Hn; rewrite (HnR Hn)]).
Qed.

(** * Properties of the decoder *)

Lemma bytesToNodeItem_Ok_inv (b : list byte) (ni : NodeItem) :
  bytesToNodeItem b = Ok ni →
  17 ≤ length b ∧
  17 + keyLen b + childLLen b + childRLen b + entryLen b ≤ length b ∧
  ni = decoded b.
Proof.
  rewrite bytesToNodeItem_unfold. repeat case_decide; try done.
  intros [= <-]. split_and!; [lia..|done].
Qed.

Lemma len_Entry_decoded (b : list byte) :
  17 + keyLen b + childLLen b + childRLen b + entryLen b ≤ length b →
  len (Entry (decoded b)) = entryLen b.
Proof.
  intros H. unfold decoded. cbn [Entry].
  rewrite len_Some, length_take, length_drop. lia.
Qed.

(** C8: a buffer shorter than the 17-byte header is rejected with
    [CorruptHeader]; a buffer of at least 17 bytes whose declared segment
    lengths, plus 17, exceed its length is rejected with [LengthOverflow];
    and when neither condition holds, neither error is returned (the buffer
    is decoded). *)
Theorem bytesToNodeItem_errors (b : list byte) :
  (length b < 17 → bytesToNodeItem b = Err CorruptHeader) ∧
  (17 ≤ length b →
   length b < 17 + keyLen b + childLLen b + childRLen b + entryLen b →
   bytesToNodeItem b = Err LengthOverflow) ∧
  (17 ≤ length b →
   17 + keyLen b + childLLen b + childRLen b + entryLen b ≤ length b →
   bytesToNodeItem b ≠ Err CorruptHeader ∧
   bytesToNodeItem b ≠ Err LengthOverflow ∧
   bytesToNodeItem b = Ok (decoded b)).
Proof.
  rewrite bytesToNodeItem_unfold. split_and!; intros;
    repeat case_decide; try lia; done.
Qed.

Lemma bytesToNodeItem_errors_witness :
  bytesToNodeItem (replicate 16 x00) = Err CorruptHeader ∧
  bytesToNodeItem buf_overflow = Err LengthOverflow ∧
  bytesToNodeItem (replicate 17 x00) ≠ Err CorruptHeader ∧
  bytesToNodeItem (replicate 17 x00) ≠ Err LengthOverflow ∧
  bytesToNodeItem (replicate 17 x00) = Ok (decoded (replicate 17 x00)).
Proof.
  split; [|split].
  - apply (bytesToNodeItem_errors (replicate 16 x00)). vm_compute. lia.
  - apply (bytesToNodeItem_errors buf_overflow); vm_compute; lia.
  - apply (bytesToNodeItem_errors (replicate 17 x00)); vm_compute; lia.
Defined.

(** C4 fails on 18 zero bytes: the header declares four empty segments,
    17 < 18, and the buffer is decoded. *)
Lemma trailing_byte_accepted : ¬ exact_length_required (replicate 18 x00).
Proof.
  intros H. destruct H as [e He]; [vm_compute; lia..|].
  vm_compute in He. discriminate.
Qed.

(** C4, amended: a buffer of at least 17 bytes is rejected exactly when the
    declared lengths, plus 17, exceed its length, and then with
    [LengthOverflow]; a buffer as long as its header declares, or longer, is
    accepted. *)
Theorem bytesToNodeItem_rejects_iff (b : list byte) :
  17 ≤ length b →
  ((∃ e, bytesToNodeItem b = Err e) ↔
   length b < 17 + keyLen b + childLLen b + childRLen b + entryLen b) ∧
  (length b < 17 + keyLen b + childLLen b + childRLen b + entryLen b →
   bytesToNodeItem b = Err LengthOverflow) ∧
  (17 + keyLen b + childLLen b + childRLen b + entryLen b ≤ length b →
   bytesToNodeItem b = Ok (decoded b)).
Proof.
  intros Hlen. rewrite bytesToNodeItem_unfold. split_and!.
  - split.
    + intros [e He]. repeat case_decide; try done; lia.
    + intros. repeat case_decide; try lia. by eexists.
  - intros. repeat case_decide; try lia; done.
  - intros. repeat case_decide; try lia; done.
Qed.

Lemma bytesToNodeItem_rejects_iff_witness :
  bytesToNodeItem buf_overflow = Err LengthOverflow ∧
  bytesToNodeItem (replicate 18 x00) = Ok (decoded (replicate 18 x00)).
Proof.
  split.
  - apply (bytesToNodeItem_rejects_iff buf_overflow); vm_compute; lia.
  - apply (bytesToNodeItem_rejects_iff (replicate 18 x00)); vm_compute; lia.
Defined.

(** C9: the decoder accepts a buffer whatever entry length it declares, as
    long as the two header checks pass; on the decoded item, when the entry
    segment is non-empty, [Node] fails with [BadEntrySize] exactly when its
    length is not twice the hash size; when it is empty, [Node] succeeds and
    the node has no entry. *)
Theorem entry_size_checked_by_Node (b : list byte) :
  17 ≤ length b →
  17 + keyLen b + childLLen b + childRLen b + entryLen b ≤ length b →
  ∃ ni, bytesToNodeItem b = Ok ni ∧ len (Entry ni) = entryLen b ∧
    (0 < len (Entry ni) →
     (Node ni = Err BadEntrySize ↔
      len (Entry ni) ≠ 2 * merkletree.ElemBytesLen)) ∧
    (len (Entry ni) = 0 →
     ∃ node, Node ni = Ok node ∧ merkletree.Entry node = (None, None)).
Proof.
  intros Hlen Hsum. exists (decoded b).
  rewrite bytesToNodeItem_unfold, !decide_False by lia.
  split_and!; [done|by apply len_Entry_decoded|..];
    rewrite Node_unfold.
  - intros Hpos. rewrite decide_True by done. split.
    + intros HN Heq. by rewrite decide_False in HN by (intros ?; done).
    + intros Hne. by rewrite decide_True.
  - intros H0. rewrite decide_False by lia. by eexists.
Qed.

Lemma entry_size_checked_by_Node_witness :
  ∃ ni, bytesToNodeItem buf_entry1 = Ok ni ∧ len (Entry ni) = entryLen buf_entry1 ∧
    (0 < len (Entry ni) →
     (Node ni = Err BadEntrySize ↔
      len (Entry ni) ≠ 2 * merkletree.ElemBytesLen)) ∧
    (len (Entry ni) = 0 →
     ∃ node, Node ni = Ok node ∧ merkletree.Entry node = (None, None)).
Proof. apply (entry_size_checked_by_Node buf_entry1); vm_compute; lia. Defined.

(** C10: in every item the decoder returns, [ChildL] and [ChildR] are non-nil
    slices, empty when the header declares length 0; so [Node], when it
    returns a node, sets both child pointers; and a node stored by [Put] with
    an absent child comes back from [Get] with the all-zero hash there. *)
Theorem decoded_children_never_nil (b : list byte) (ni : NodeItem)
    (s : Storage) (key : option (list byte)) (node : merkletree.Node)
    (db db1 : Redis) :
  (bytesToNodeItem b = Ok ni →
   is_Some (ChildL ni) ∧ is_Some (ChildR ni) ∧
   (childLLen b = 0 → ChildL ni = Some []) ∧
   (childRLen b = 0 → ChildR ni = Some []) ∧
   (Node ni = Err BadEntrySize ∨
    ∃ n', Node ni = Ok n' ∧ is_Some (merkletree.ChildL n') ∧
          is_Some (merkletree.ChildR n'))) ∧
  (merkletree.wf_node node →
   Put s key node db = (Ok tt, db1) → goes_through db1 →
   ∃ got, (Get s key db1).1 = Ok got ∧
     (merkletree.ChildL node = None →
      merkletree.ChildL got = Some merkletree.HashZero) ∧
     (merkletree.ChildR node = None →
      merkletree.ChildR got = Some merkletree.HashZero)).
Proof.
  split.
  - intros (_ & _ & ->)%bytesToNodeItem_Ok_inv. split_and!.
    + by eexists.
    + by eexists.
    + intros H0. unfold decoded. cbn [ChildL]. by rewrite H0.
    + intros H0. unfold decoded. cbn [ChildR]. by rewrite H0.
    + rewrite Node_unfold.
      destruct (decide _); [destruct (decide _)|]; [by left|right..];
        (eexists; split; [done|]; split; by eexists).
  - intros Hwf HP Hg.
    destruct (Put_Get_any_key _ _ _ _ _ Hwf HP Hg)
      as (got & HG & _ & _ & _ & HL & HR).
    by exists got.
Qed.

Lemma wf_leafAB : merkletree.wf_node leafAB.
Proof. by vm_compute. Qed.

Lemma decoded_children_never_nil_witness :
  (is_Some (ChildL (decoded (replicate 17 x00))) ∧
   is_Some (ChildR (decoded (replicate 17 x00)))) ∧
  ∃ got, (Get s_p1 (Some K32) (Put s_p1 (Some K32) leafAB db_empty).2).1
         = Ok got ∧
    merkletree.ChildL got = Some merkletree.HashZero ∧
    merkletree.ChildR got = Some merkletree.HashZero.
Proof.
  pose proof (decoded_children_never_nil (replicate 17 x00)
                (decoded (replicate 17 x00)) s_p1 (Some K32) leafAB db_empty
                (Put s_p1 (Some K32) leafAB db_empty).2) as [H1 H2].
  split.
  - destruct H1 as (HL & HR & _); [by vm_compute|]. by split.
  - destruct H2 as (got & HG & HL & HR);
      [exact wf_leafAB|by vm_compute|by vm_compute|].
    exists got. split_and!; [done|by apply HL|by apply HR].
Defined.

(** * Properties of [Put] and [Get] *)

(** C1 at a leaf: [Put] of a node of type [NodeTypeLeaf] succeeds, and the
    [Get] that follows returns a node of type [NodeTypeMiddle] whose children
    are the all-zero hash and whose entry is two all-zero hashes: [Put] never
    assigns the item's [Type] field. *)
Theorem Put_Get_Leaf_returns_Middle :
  merkletree.Type_ leafAB = merkletree.NodeTypeLeaf ∧
  (Put s_p1 (Some K32) leafAB db_empty).1 = Ok tt ∧
  (Get s_p1 (Some K32) (Put s_p1 (Some K32) leafAB db_empty).2).1
  = Ok (merkletree.mkNode merkletree.NodeTypeMiddle
          (Some merkletree.HashZero) (Some merkletree.HashZero)
          (Some merkletree.HashZero, Some merkletree.HashZero)).
Proof. by vm_compute. Qed.

(** C7 fails when the server is unreachable: [Put] returns the client's error
    value itself. *)
Lemma Put_returns_raw_error_example :
  ¬ Put_wraps_store_error s_p1 (Some K32) leafAB db_down.
Proof.
  intros H. destruct (H _ eq_refl) as [msg Hmsg].
  vm_compute in Hmsg. discriminate.
Qed.

(** C7, amended: when the store write fails, [Put] returns the error the
    client reported, unchanged and unwrapped. *)
Theorem Put_returns_store_error (s : Storage) (key : option (list byte))
    (node : merkletree.Node) (db : Redis) (e : error) :
  next_fault db = Some e → (Put s key node db).1 = Err e.
Proof. intros He. by rewrite Put_unfold, (redis_Set_fault _ _ _ _ He). Qed.

Lemma Put_returns_store_error_witness :
  (Put s_p1 (Some K32) leafAB db_down).1 = Err (redis_Err "connection refused").
Proof.
  apply (Put_returns_store_error s_p1 (Some K32) leafAB db_down). reflexivity.
Defined.

(** * Properties of the root tracker *)

Lemma SetRoot_cache (s : Storage) (hash : merkletree.Hash) (db : Redis) :
  merkletree.wf_hash hash → merkletree.wf_ptr (currentRoot s) →
  currentRoot (SetRoot s hash db).1.2 = Some hash ∧
  nodeIdPrefix (SetRoot s hash db).1.2 = nodeIdPrefix s ∧
  rootId (SetRoot s hash db).1.2 = rootId s.
Proof.
  intros Hh Hs. unfold SetRoot.
  assert (Hc : copy (default merkletree.HashZero (currentRoot s)) hash = hash).
  { apply copy_hash. unfold merkletree.wf_hash in *.
    destruct (currentRoot s) as [c|]; simpl in *; [congruence|].
    by rewrite Hh. }
  rewrite Hc. by destruct (redis_Set _ _ _) as [[e|] db'].
Qed.

(** C6: when the store write of [SetRoot] fails with [e], [SetRoot] returns a
    [storageError] that carries [e] as its cause, which [Unwrap] gives back,
    and the context message ["failed to update current root hash"]; the
    handle's cached root is by then the new hash, whatever it held before. *)
Theorem SetRoot_failure_updates_cache (s : Storage) (hash : merkletree.Hash)
    (db : Redis) (e : error) :
  merkletree.wf_hash hash → merkletree.wf_ptr (currentRoot s) →
  next_fault db = Some e →
  ∃ err, (SetRoot s hash db).1.1 = Err err ∧
         err = storageError e "failed to update current root hash" ∧
         Unwrap err = Some e ∧
         currentRoot (SetRoot s hash db).1.2 = Some hash.
Proof.
  intros Hh Hs He.
  exists (storageError e "failed to update current root hash").
  split_and!; [| done | done | by apply SetRoot_cache].
  unfold SetRoot. by rewrite (redis_Set_fault _ _ _ _ He).
Qed.

Lemma SetRoot_failure_updates_cache_witness :
  ∃ err, (SetRoot s_p1 A32 db_down).1.1 = Err err ∧
         err = storageError (redis_Err "connection refused")
                 "failed to update current root hash" ∧
         Unwrap err = Some (redis_Err "connection refused") ∧
         currentRoot (SetRoot s_p1 A32 db_down).1.2 = Some A32.
Proof.
  apply (SetRoot_failure_updates_cache s_p1 A32 db_down); by vm_compute.
Defined.

(** C5: after a successful [SetRoot(h1)], [GetRoot] on the same handle returns
    [h1] from the cache, without issuing a command to the server; and a fresh
    handle for the same prefix, whose cache is empty, reads [h1] back from the
    server when that read goes through. *)
Theorem SetRoot_then_GetRoot (prefix : string) (s s1 : Storage)
    (h1 : merkletree.Hash) (db db1 : Redis) :
  merkletree.wf_hash h1 → merkletree.wf_ptr (currentRoot s) →
  rootId s = rootId (NewMerkleRedisStorage prefix) →
  SetRoot s h1 db = (Ok tt, s1, db1) →
  GetRoot s1 db1 = (Ok h1, s1, db1) ∧
  currentRoot (NewMerkleRedisStorage prefix) = None ∧
  (goes_through db1 →
   ∃ s2 db2, GetRoot (NewMerkleRedisStorage prefix) db1 = (Ok h1, s2, db2) ∧
             log db2 = GET (rootId s) :: log db1).
Proof.
  intros Hh Hs Hid HS.
  destruct (SetRoot_cache s h1 db Hh Hs) as (Hc & _ & Hr).
  rewrite HS in Hc, Hr. cbn [fst snd] in Hc, Hr.
  assert (Hkv : kv db1 !! rootId s = Some (hex_EncodeToString h1)).
  { unfold SetRoot in HS. cbn [rootId] in HS.
    destruct (redis_Set _ _ _) as [[e|] db'] eqn:E; [done|].
    injection HS as _ <-. apply redis_Set_None in E as [_ ->].
    apply lookup_insert_eq. }
  split_and!; [|done|].
  - unfold GetRoot. rewrite Hc. by rewrite copy_hash.
  - intros Hg. unfold GetRoot. cbn [currentRoot NewMerkleRedisStorage].
    rewrite <- Hid.
    rewrite (redis_Get_goes_through _ _ _ Hg Hkv). cbn [cmd_Err cmd_Val].
    rewrite hex_DecodeString_EncodeToString.
    cbn [default from_option id]. rewrite !(copy_hash _ h1) by done.
    by eexists _, _.
Qed.

Lemma SetRoot_then_GetRoot_witness :
  GetRoot (SetRoot s_p1 A32 db_empty).1.2 (SetRoot s_p1 A32 db_empty).2
  = (Ok A32, (SetRoot s_p1 A32 db_empty).1.2, (SetRoot s_p1 A32 db_empty).2) ∧
  currentRoot (NewMerkleRedisStorage "p1") = None ∧
  (goes_through (SetRoot s_p1 A32 db_empty).2 →
   ∃ s2 db2, GetRoot (NewMerkleRedisStorage "p1") (SetRoot s_p1 A32 db_empty).2
             = (Ok A32, s2, db2) ∧
             log db2 = GET (rootId s_p1) :: log (SetRoot s_p1 A32 db_empty).2).
Proof.
  apply (SetRoot_then_GetRoot "p1" s_p1 _ A32 db_empty); by vm_compute.
Defined.

(** * Properties of the encoder *)


Lemma long_key_not_roundtrip (n : NodeItem) :
  u32len (Key n) < len (Key n) → ¬ segments_roundtrip n.
Proof.
  intros Hlt (ni & Hd & Hk & _).
  rewrite bytesToNodeItem_nodeItemToBytes in Hd. injection Hd as <-.
  cbn [Key] in Hk. apply (f_equal length) in Hk.
  change (length (bytes (Key n))) with (len (Key n)) in Hk.
  change (bytes (Some ?l)) with l in Hk.
  rewrite length_take in Hk. lia.
Qed.

Lemma u32len_4GiB : u32len (Some (replicate (N.to_nat (2 ^ 32)) x00)) = 0.
Proof.
  unfold u32len, len32, uint32. rewrite len_Some, length_replicate, N2Nat.id.
  by rewrite N.Div0.mod_same.
Qed.

(** On a key of [2^32] bytes the header's length word wraps to 0, so the
    decoder returns an empty key. *)
Lemma key_of_4GiB_not_roundtrip : ¬ segments_roundtrip item_4GiB_key.
Proof.
  apply long_key_not_roundtrip. unfold item_4GiB_key. cbn [Key].
  rewrite u32len_4GiB, len_Some, length_replicate. lia.
Qed.

(** C2 fails in four ways.  On a key of [2^32] bytes the decoder returns an
    empty key.  On the item [Put] builds for a leaf, whose children are nil,
    the decoded segments are the original bytes, but the node [Node] builds
    has a zero hash, not nil, for each child.  On an item with a one-byte
    right child the decoded segments are the original bytes, but the right
    child of the node is that byte followed by 31 zero bytes.  On an item
    with two 32-byte children and a one-byte entry the decoded segments are
    the original bytes, but [Node] returns an error and builds no node. *)
Lemma roundtrip_as_stated_fails :
  ¬ roundtrip_as_stated item_4GiB_key ∧
  (segments_roundtrip (Put_item (Some K32) leafAB) ∧
   ¬ roundtrip_as_stated (Put_item (Some K32) leafAB)) ∧
  (segments_roundtrip item_short_child ∧
   ¬ roundtrip_as_stated item_short_child) ∧
  (segments_roundtrip item_1_byte_entry ∧
   ¬ roundtrip_as_stated item_1_byte_entry).
Proof.
  split_and!.
  - intros (ni & Hd & Hk & Hl & Hr & _).
    apply key_of_4GiB_not_roundtrip.
    exact (ex_intro _ ni (conj Hd (conj Hk (conj Hl Hr)))).
  - eexists. by vm_compute.
  - intros (ni & Hd & _ & _ & _ & node & HN & HL & _).
    vm_compute in Hd. injection Hd as <-.
    vm_compute in HN. injection HN as <-. discriminate HL.
  - eexists. by vm_compute.
  - intros (ni & Hd & _ & _ & _ & node & HN & _ & HR).
    vm_compute in Hd. injection Hd as <-.
    vm_compute in HN. injection HN as <-. discriminate HR.
  - eexists. by vm_compute.
  - intros (ni & Hd & _ & _ & _ & node & HN & _).
    vm_compute in Hd. injection Hd as <-.
    vm_compute in HN. discriminate HN.
Qed.

(** C2, amended: for an item whose key and children are each shorter than
    [2^32] bytes, decoding the encoding succeeds and returns the type byte and the
    bytes of [Key], [ChildL] and [ChildR]; [Node] succeeds on it when the entry
    is empty or 64 bytes long, and every node it returns carries, as child
    hashes, the original child bytes copied into a zeroed hash: the original
    itself when that is a 32-byte hash, the zero hash when it is nil. *)
Theorem nodeItem_roundtrip (n : NodeItem) :
  fits n →
  ∃ ni, nodeItemToBytes n ≫= bytesToNodeItem = Ok ni ∧
    Type_ ni = Type_ n ∧
    bytes (Key ni) = bytes (Key n) ∧
    bytes (ChildL ni) = bytes (ChildL n) ∧
    bytes (ChildR ni) = bytes (ChildR n) ∧
    (len (Entry n) = 0 ∨ len (Entry n) = 2 * merkletree.ElemBytesLen →
     ∃ node, Node ni = Ok node) ∧
    (∀ node, Node ni = Ok node →
       merkletree.ChildL node
       = Some (copy merkletree.HashZero (bytes (ChildL n))) ∧
       merkletree.ChildR node
       = Some (copy merkletree.HashZero (bytes (ChildR n))) ∧
       (merkletree.wf_hash (bytes (ChildL n)) →
        merkletree.ChildL node = Some (bytes (ChildL n))) ∧
       (merkletree.wf_hash (bytes (ChildR n)) →
        merkletree.ChildR node = Some (bytes (ChildR n))) ∧
       (ChildL n = None → merkletree.ChildL node = Some merkletree.HashZero) ∧
       (ChildR n = None → merkletree.ChildR node = Some merkletree.HashZero)).
Proof.
  intros Hfits. eexists. split; [by apply bytesToNodeItem_nodeItemToBytes_fits|].
  cbn [Type_ Key ChildL ChildR bytes default from_option id].
  split_and!; try done.
  - intros HE. rewrite Node_unfold. cbn [Entry].
    rewrite len_Some, length_take, length_entry_segment.
    unfold merkletree.ElemBytesLen in *.
    destruct HE as [HE|HE];
      [rewrite (u32len_0 _ HE)|rewrite (u32len_64 _ HE)]; rewrite HE;
      repeat case_decide; try lia; by eexists.
  - intros node. rewrite Node_unfold.
    cbn [Type_ ChildL ChildR fmap option_fmap option_map].
    assert (Hwf : ∀ l, merkletree.wf_hash l → copy merkletree.HashZero l = l)
      by (intros l Hl; by apply copy_hash).
    repeat case_decide; [done|intros [= <-]..];
      cbn [merkletree.ChildL merkletree.ChildR];
      (split_and!;
         [done|done|by intros ->%Hwf|by intros ->%Hwf|by intros ->|by intros ->]).
Qed.

Lemma nodeItem_roundtrip_witness :
  ∃ ni, nodeItemToBytes (mkNodeItem x01 (Some K32) (Some A32) (Some B32) None)
        ≫= bytesToNodeItem = Ok ni ∧
    Type_ ni = x01 ∧ bytes (Key ni) = K32 ∧
    bytes (ChildL ni) = A32 ∧ bytes (ChildR ni) = B32.
Proof.
  destruct (nodeItem_roundtrip
              (mkNodeItem x01 (Some K32) (Some A32) (Some B32) None))
    as (ni & Hd & Ht & Hk & Hl & Hr & _); [by vm_compute|].
  by exists ni.
Defined.




(** * Further properties of the code *)

(** ** The 32-bit words of the header *)

Lemma split_at_word (d : list byte) (i : nat) :
  i + 3 < length d →
  ∃ b0 b1 b2 b3 post, d = take i d ++ b0 :: b1 :: b2 :: b3 :: post ∧
                      length (take i d) = i.
Proof.
  intros Hi. rewrite length_take_le by lia.
  pose proof (take_drop i d) as Hd. pose proof (length_drop d i) as Hl.
  destruct (drop i d) as [|b0 [|b1 [|b2 [|b3 post]]]]; simpl in Hl; try lia.
  by exists b0, b1, b2, b3, post.
Qed.

(** X1: [writeUint32LE] followed by [readUint32LE] at the same index gives the
    value back (as a [uint32]); the write keeps the length of the buffer and
    touches no byte outside the four it is meant for. *)
Theorem writeUint32LE_readUint32LE (d : list byte) (i : nat) (v : N) :
  i + 3 < length d →
  ∃ d', writeUint32LE d i v = Ok d' ∧ length d' = length d ∧
        readUint32LE d' i = Ok (uint32 v) ∧
        (∀ j, j < i ∨ i + 4 ≤ j → d' !! j = d !! j).
Proof.
  intros Hi.
  destruct (split_at_word d i Hi) as (b0 & b1 & b2 & b3 & post & Hd & Hpre).
  exists (take i d ++ le32 v ++ post). split_and!.
  - by apply (writeUint32LE_at _ _ _ b0 b1 b2 b3).
  - rewrite Hd at 2. rewrite !length_app. done.
  - erewrite (readUint32LE_at _ _ (take i d)); [|reflexivity|done].
    by rewrite word32_le32.
  - intros j Hj. rewrite Hd at 2. destruct Hj as [Hj|Hj].
    + by rewrite !lookup_app_l by (rewrite Hpre; lia).
    + rewrite !(lookup_app_r (take i d)) by (rewrite Hpre; lia).
      rewrite Hpre.
      destruct (j - i) as [|[|[|[|k]]]] eqn:E; try lia. done.
Qed.

Lemma writeUint32LE_readUint32LE_witness :
  ∃ d', writeUint32LE (replicate 17 x00) 13 64 = Ok d' ∧
        length d' = length (replicate 17 x00) ∧
        readUint32LE d' 13 = Ok (uint32 64) ∧
        (∀ j, j < 13 ∨ 13 + 4 ≤ j → d' !! j = replicate 17 x00 !! j).
Proof.
  apply (writeUint32LE_readUint32LE (replicate 17 x00) 13 64). vm_compute. lia.
Defined.

(** X2: both helpers panic exactly when one of the four positions lies outside
    the buffer; a word that is read is below [2^32]. *)
Theorem uint32LE_bounds (d : list byte) (i : nat) (v : N) :
  (readUint32LE d i = Panic ↔ length d ≤ i + 3) ∧
  (writeUint32LE d i v = Panic ↔ length d ≤ i + 3) ∧
  (∀ w, readUint32LE d i = Ok w → (w < 2 ^ 32)%N).
Proof.
  destruct (decide (i + 3 < length d)) as [Hi|Hi].
  - destruct (split_at_word d i Hi) as (c0 & c1 & c2 & c3 & post & Hd & Hpre).
    rewrite (writeUint32LE_at _ _ _ c0 c1 c2 c3 post v Hd) by done.
    destruct (readUint32LE_Ok d i Hi) as (b0 & b1 & b2 & b3 & ->).
    split_and!; [split; [done|lia]..|].
    intros w [= <-]. apply word32_lt.
  - assert (Hr : readUint32LE d i = Panic).
    { unfold readUint32LE, index. by rewrite (lookup_ge_None_2 d (i + 3)) by lia. }
    assert (Hw : writeUint32LE d i v = Panic).
    { unfold writeUint32LE, store.
      repeat (case_decide; cbn [mbind res_bind]; try done);
        rewrite ?length_insert in *; lia. }
    rewrite Hr, Hw. split_and!; [split; [lia|done]..|done].
Qed.

Lemma uint32LE_bounds_witness :
  readUint32LE (replicate 16 x00) 13 = Panic ∧
  writeUint32LE (replicate 16 x00) 13 7 = Panic ∧
  (1 < 2 ^ 32)%N.
Proof.
  destruct (uint32LE_bounds (replicate 16 x00) 13 7) as (H1 & H2 & _).
  destruct (uint32LE_bounds buf_entry1 13 7) as (_ & _ & H3).
  split_and!; [apply H1|apply H2|apply H3]; vm_compute; (lia || reflexivity).
Defined.

(** ** The codec *)

(** X3: the decoder never panics, whatever the buffer; and the item it returns
    has the first byte of the buffer as its type and four segments of exactly
    the declared lengths, which together with the header fit the buffer. *)
Theorem bytesToNodeItem_safe (b : list byte) :
  bytesToNodeItem b ≠ Panic ∧
  ∀ ni, bytesToNodeItem b = Ok ni →
    b !! 0 = Some (Type_ ni) ∧
    len (Key ni) = keyLen b ∧ len (ChildL ni) = childLLen b ∧
    len (ChildR ni) = childRLen b ∧ len (Entry ni) = entryLen b ∧
    17 + len (Key ni) + len (ChildL ni) + len (ChildR ni) + len (Entry ni)
    ≤ length b.
Proof.
  split.
  - rewrite bytesToNodeItem_unfold. by repeat case_decide.
  - intros ni (Hlen & Hsum & ->)%bytesToNodeItem_Ok_inv.
    unfold decoded. cbn [Type_ Key ChildL ChildR Entry].
    rewrite !len_Some, !length_take, !length_drop.
    destruct (lookup_lt_is_Some_2 b 0) as [ty ->]; [lia|].
    split_and!; [done|lia..].
Qed.

Lemma bytesToNodeItem_safe_witness :
  buf_entry1 !! 0 = Some (Type_ (decoded buf_entry1)) ∧
  len (Entry (decoded buf_entry1)) = entryLen buf_entry1.
Proof.
  destruct (bytesToNodeItem_safe buf_entry1) as [_ H].
  destruct (H (decoded buf_entry1)) as (H0 & _ & _ & _ & H4 & _);
    [by vm_compute|]. by split.
Defined.

Lemma declared_app (b t : list byte) (i : nat) :
  i + 3 < length b → declared (b ++ t) i = declared b i.
Proof.
  intros Hi. unfold declared, readUint32LE, index.
  by rewrite !lookup_app_l by lia.
Qed.

(** X4: bytes that follow the declared segments are ignored: appending
    anything to a buffer the decoder accepts does not change the item it
    returns. *)
Theorem bytesToNodeItem_app (b t : list byte) (ni : NodeItem) :
  bytesToNodeItem b = Ok ni → bytesToNodeItem (b ++ t) = Ok ni.
Proof.
  intros (Hlen & Hsum & ->)%bytesToNodeItem_Ok_inv.
  rewrite bytesToNodeItem_unfold.
  unfold keyLen, childLLen, childRLen, entryLen in *.
  rewrite !declared_app by lia.
  rewrite !decide_False by (rewrite length_app; lia).
  f_equal. unfold decoded, keyLen, childLLen, childRLen, entryLen.
  rewrite !declared_app by lia.
  rewrite lookup_app_l by lia.
  rewrite !drop_app_le by lia.
  by rewrite !take_app_le by (rewrite length_drop; lia).
Qed.

Lemma bytesToNodeItem_app_witness :
  bytesToNodeItem (replicate 17 x00 ++ [x01; x02; x03])
  = Ok (decoded (replicate 17 x00)).
Proof. apply (bytesToNodeItem_app (replicate 17 x00)). by vm_compute. Defined.

(** X5: the encoder never fails: for every item it returns a buffer of
    [17 + len(Key) + len(ChildL) + len(ChildR) + len(Entry)] bytes that starts
    with the item's type byte; the decoder accepts that buffer and returns the
    same type byte, also when a field is too long for its length word. *)
Theorem nodeItemToBytes_decodable (n : NodeItem) :
  ∃ d ni, nodeItemToBytes n = Ok d ∧
    length d = 17 + len (Key n) + len (ChildL n) + len (ChildR n)
               + len (Entry n) ∧
    d !! 0 = Some (Type_ n) ∧
    bytesToNodeItem d = Ok ni ∧ Type_ ni = Type_ n.
Proof.
  pose proof (bytesToNodeItem_nodeItemToBytes n) as Hd.
  rewrite nodeItemToBytes_encoding, bind_Ok in Hd.
  eexists _, _. split_and!; [apply nodeItemToBytes_encoding| | |exact Hd|done].
  - unfold encoding. rewrite length_app, length_header, length_payload. lia.
  - done.
Qed.

(** ** Node reconstruction *)

(** X6: [Node] never panics, and a node it returns has the type byte of the
    item, both children set exactly when the item's slices are non-nil, and
    an entry exactly when the item's entry is non-empty. *)
Theorem Node_safe (item : NodeItem) :
  Node item ≠ Panic ∧
  ∀ node, Node item = Ok node →
    merkletree.Type_ node = Type_ item ∧
    (is_Some (merkletree.ChildL node) ↔ is_Some (ChildL item)) ∧
    (is_Some (merkletree.ChildR node) ↔ is_Some (ChildR item)) ∧
    (is_Some (merkletree.Entry node).1 ↔ 0 < len (Entry item)) ∧
    (is_Some (merkletree.Entry node).2 ↔ 0 < len (Entry item)) ∧
    merkletree.wf_node node.
Proof.
  rewrite Node_unfold. split; [by repeat case_decide|].
  intros node.
  assert (Hwf : ∀ p : option (list byte),
            merkletree.wf_ptr (copy merkletree.HashZero <$> p)).
  { intros [l|]; [|done]. simpl. unfold merkletree.wf_hash.
    by rewrite length_copy. }
  assert (Hwf' : ∀ l, merkletree.wf_ptr (Some (copy merkletree.HashZero l))).
  { intros l. apply (Hwf (Some l)). }
  unfold merkletree.wf_node.
  repeat case_decide; [done|intros [= <-]..];
    cbn [merkletree.Type_ merkletree.ChildL merkletree.ChildR
         merkletree.Entry fst snd];
    rewrite !fmap_is_Some; split_and!; done.
Qed.

Lemma Node_safe_witness :
  merkletree.Type_ (merkletree.mkNode x00 (Some merkletree.HashZero)
                      (Some merkletree.HashZero) (None, None)) = x00 ∧
  merkletree.wf_node (merkletree.mkNode x00 (Some merkletree.HashZero)
                        (Some merkletree.HashZero) (None, None)).
Proof.
  destruct (Node_safe (decoded (replicate 17 x00))) as [_ H].
  destruct (H (merkletree.mkNode x00 (Some merkletree.HashZero)
                 (Some merkletree.HashZero) (None, None)))
    as (H1 & _ & _ & _ & _ & H6); [by vm_compute|].
  by split.
Defined.

(** X7: from an item whose children are 32-byte hashes (or nil) and whose
    entry is the concatenation of two 32-byte values (or nil), [Node] rebuilds
    exactly these hashes. *)
Theorem Node_of_hashes (t : byte) (key : option (list byte))
    (l r : option merkletree.Hash) (e0 e1 : merkletree.Hash) :
  merkletree.wf_ptr l → merkletree.wf_ptr r →
  merkletree.wf_hash e0 → merkletree.wf_hash e1 →
  Node (mkNodeItem t key l r (Some (e0 ++ e1)))
  = Ok (merkletree.mkNode t l r (Some e0, Some e1)) ∧
  Node (mkNodeItem t key l r None)
  = Ok (merkletree.mkNode t l r (None, None)).
Proof.
  intros Hl Hr H0 H1. rewrite !Node_unfold. cbn [Type_ ChildL ChildR Entry].
  unfold merkletree.wf_hash, merkletree.ElemBytesLen in *.
  assert (Hp : ∀ p : option (list byte), merkletree.wf_ptr p →
                 copy merkletree.HashZero <$> p = p).
  { intros [h|] Hh; [|done]. simpl. f_equal. by apply copy_hash. }
  rewrite (Hp l Hl), (Hp r Hr), !len_Some, length_app.
  change (len None) with 0.
  rewrite !decide_True, !decide_False by lia.
  cbn [bytes default from_option id].
  rewrite take_app_length' by done.
  rewrite drop_app_length' by done.
  rewrite take_ge by lia.
  by rewrite !copy_hash by done.
Qed.

Lemma Node_of_hashes_witness :
  Node (mkNodeItem x01 (Some K32) None None (Some (A32 ++ B32)))
  = Ok (merkletree.mkNode x01 None None (Some A32, Some B32)) ∧
  Node (mkNodeItem x01 (Some K32) None None None)
  = Ok (merkletree.mkNode x01 None None (None, None)).
Proof. apply (Node_of_hashes x01 (Some K32) None None A32 B32); by vm_compute. Defined.

(** ** Redis keys *)

Lemma append_inj (s a b : string) : s +:+ a = s +:+ b → a = b.
Proof. induction s as [|c s IH]; simpl; [done|]. intros [= H]. by apply IH. Qed.

Lemma hex_EncodeToString_inj (a b : list byte) :
  hex_EncodeToString a = hex_EncodeToString b → a = b.
Proof.
  intros H. apply (f_equal hex_DecodeString) in H.
  rewrite !hex_DecodeString_EncodeToString in H. by injection H.
Qed.

Lemma hex_DecodeString_odd_aux (s : string) :
  (Nat.odd (String.length s) = true → hex_DecodeString s = None) ∧
  (∀ c, Nat.odd (String.length (String c s)) = true →
        hex_DecodeString (String c s) = None).
Proof.
  induction s as [|a s [IH1 IH2]].
  - split; [done|]. done.
  - split; [apply IH2|]. intros c Hodd.
    cbn [hex_DecodeString].
    rewrite IH1 by (cbn [String.length] in Hodd; by rewrite Nat.odd_succ_succ in Hodd).
    by destruct (fromHexChar c), (fromHexChar a).
Qed.

(** A hex string of odd length does not decode. *)
Lemma hex_DecodeString_odd (s : string) :
  Nat.odd (String.length s) = true → hex_DecodeString s = None.
Proof. apply hex_DecodeString_odd_aux. Qed.

(** ** [Get] *)

Lemma decode_then_Node_no_panic (d : list byte) :
  bytesToNodeItem d ≫= Node ≠ Panic.
Proof.
  rewrite bytesToNodeItem_unfold. repeat case_decide; try done.
  rewrite bind_Ok, Node_unfold. by repeat case_decide.
Qed.

Lemma Get_Some s key db v :
  goes_through db → kv db !! getRedisNodeIdForMerkleKey s key = Some v →
  Get s key db
  = (match hex_DecodeString v with
     | None => Err (Errorf "corrupt key hex")
     | Some d => bytesToNodeItem d ≫= Node
     end, issue (GET (getRedisNodeIdForMerkleKey s key)) db).
Proof.
  intros Hg Hv. unfold Get. rewrite (redis_Get_goes_through _ _ _ Hg Hv).
  cbn [cmd_Err cmd_Val]. by destruct (hex_DecodeString v).
Qed.

(** X8: [Get] returns [ErrNotFound] when the server has no value under the
    key's id, and also when the client fails with [redis.Nil]; any other
    failure of the client is returned as it is, unwrapped. *)
Theorem Get_errors (s : Storage) (key : option (list byte)) (db : Redis) :
  (goes_through db → kv db !! getRedisNodeIdForMerkleKey s key = None →
   (Get s key db).1 = Err merkletree_ErrNotFound) ∧
  (next_fault db = Some redis_Nil →
   (Get s key db).1 = Err merkletree_ErrNotFound) ∧
  (∀ e, next_fault db = Some e → e ≠ redis_Nil → (Get s key db).1 = Err e).
Proof.
  unfold Get, redis_Get, goes_through. split_and!.
  - intros -> Hkv. cbn [issue kv]. by rewrite Hkv.
  - by intros ->.
  - intros e -> He. by destruct e.
Qed.

Lemma Get_errors_witness :
  (Get s_p1 (Some K32) db_empty).1 = Err merkletree_ErrNotFound ∧
  (Get s_p1 (Some K32) db_down).1 = Err (redis_Err "connection refused").
Proof.
  destruct (Get_errors s_p1 (Some K32) db_empty) as (H1 & _).
  destruct (Get_errors s_p1 (Some K32) db_down) as (_ & _ & H3).
  split; [by apply H1|by apply H3].
Defined.

(** X9: whatever the server holds and however the client fails, [Get] does
    not panic, issues exactly one [GET], for the id of its key, and leaves the
    keyspace as it is. *)
Theorem Get_safe (s : Storage) (key : option (list byte)) (db : Redis) :
  (Get s key db).1 ≠ Panic ∧
  kv (Get s key db).2 = kv db ∧
  log (Get s key db).2 = GET (getRedisNodeIdForMerkleKey s key) :: log db.
Proof.
  unfold Get, redis_Get.
  destruct (next_fault db) as [e|]; [by destruct e|].
  cbn [issue kv].
  destruct (kv db !! _) as [v|]; [|done]. cbn [cmd_Err cmd_Val].
  destruct (hex_DecodeString v) as [d|]; [|done].
  split_and!; [apply decode_then_Node_no_panic|done..].
Qed.

(** X10: a stored value that [Put] cannot have written makes [Get] fail with
    an error: a value of odd length with "corrupt key hex", the hex form of a
    buffer shorter than 17 bytes with the decoder's [CorruptHeader]. *)
Theorem Get_corrupt (s : Storage) (key : option (list byte)) (db : Redis)
    (v : string) :
  goes_through db → kv db !! getRedisNodeIdForMerkleKey s key = Some v →
  (Nat.odd (String.length v) = true →
   (Get s key db).1 = Err (Errorf "corrupt key hex")) ∧
  (∀ d, v = hex_EncodeToString d → length d < 17 →
        (Get s key db).1 = Err CorruptHeader).
Proof.
  intros Hg Hv. rewrite (Get_Some _ _ _ _ Hg Hv). split.
  - intros Hodd. by rewrite hex_DecodeString_odd.
  - intros d -> Hd. rewrite hex_DecodeString_EncodeToString.
    cbn [fst]. rewrite bytesToNodeItem_unfold. by rewrite decide_True.
Qed.

Lemma Get_corrupt_witness :
  (Get s_p1 (Some K32)
     (mkRedis {[getRedisNodeIdForMerkleKey s_p1 (Some K32) := "abc"]} [] [])).1
  = Err (Errorf "corrupt key hex") ∧
  (Get s_p1 (Some K32)
     (mkRedis {[getRedisNodeIdForMerkleKey s_p1 (Some K32) := "0102"]} [] [])).1
  = Err CorruptHeader.
Proof.
  split.
  - apply (Get_corrupt s_p1 (Some K32) _ "abc"); by vm_compute.
  - eapply (Get_corrupt s_p1 (Some K32) _ "0102") with (d := [x01; x02]);
      (by vm_compute) || (simpl; lia).
Defined.

(** ** [Put] *)

Lemma entry_halves (r : option merkletree.Hash) :
  merkletree.wf_ptr r →
  take 32 (copy (replicate 64 x00) (bytes r)) = default merkletree.HashZero r ∧
  take 32 (drop 32 (copy (replicate 64 x00) (bytes r))) = merkletree.HashZero.
Proof.
  rewrite copy_zeros. destruct r as [h|]; simpl.
  - unfold merkletree.wf_hash, merkletree.ElemBytesLen. intros Hh.
    rewrite (take_ge h 64), Hh by lia.
    rewrite take_app_length', drop_app_length' by done. by split.
  - intros _. by split.
Qed.

Lemma fits_Put_item key node :
  merkletree.wf_node node → (N.of_nat (len key) < 2 ^ 32)%N →
  fits (Put_item key node).
Proof.
  intros (HL & HR & _) Hk. unfold fits, Put_item. cbn [Key ChildL ChildR].
  split_and!; [done|..].
  - destruct (len_Put_item_child _ HL) as [->| ->]; done.
  - destruct (len_Put_item_child _ HR) as [->| ->]; done.
Qed.

(** What [Get] returns after [Put] stored [node] under a key of less than
    [2^32] bytes. *)
Lemma Put_Get_fits s key node db db1 :
  merkletree.wf_node node → (N.of_nat (len key) < 2 ^ 32)%N →
  Put s key node db = (Ok tt, db1) → goes_through db1 →
  (Get s key db1).1
  = Ok (merkletree.mkNode x00
          (Some (default merkletree.HashZero (merkletree.ChildL node)))
          (Some (default merkletree.HashZero (merkletree.ChildR node)))
          match merkletree.Entry node with
          | (Some _, Some _) =>
              (Some (default merkletree.HashZero (merkletree.ChildR node)),
               Some merkletree.HashZero)
          | _ => (None, None)
          end).
Proof.
  intros Hwf Hk HP Hg. rewrite (Put_Get_raw _ _ _ _ _ HP Hg).
  rewrite (bytesToNodeItem_nodeItemToBytes_fits _ (fits_Put_item _ _ Hwf Hk)).
  rewrite bind_Ok, Node_unfold.
  cbn [Type_ ChildL ChildR Entry Put_item fmap option_fmap option_map].
  destruct Hwf as (HL & HR & H0 & H1).
  assert (Hc : ∀ p : option merkletree.Hash, merkletree.wf_ptr p →
                 copy merkletree.HashZero (bytes p)
                 = default merkletree.HashZero p).
  { intros [h|] Hh; simpl; [by apply copy_hash|apply copy_nil]. }
  rewrite (Hc _ HL), (Hc _ HR).
  unfold entry_segment. cbn [Entry ChildR Put_item].
  destruct (merkletree.Entry node) as [[e0|] [e1|]]; simpl in H0, H1;
    cbv beta iota;
    try (change (u32len None) with 0; rewrite take_0;
         change (len (Some [])) with 0; by rewrite decide_False by lia).
  assert (H64 : len (Some (e0 ++ e1)) = 64).
  { rewrite len_Some, length_app.
    unfold merkletree.wf_hash, merkletree.ElemBytesLen in *. lia. }
  rewrite (u32len_64 _ H64), H64.
  rewrite take_ge by (by rewrite length_copy, length_replicate).
  rewrite len_Some, length_copy, length_replicate.
  rewrite decide_True, decide_False by (unfold merkletree.ElemBytesLen; lia).
  cbn [bytes default from_option id].
  destruct (entry_halves _ HR) as [-> ->].
  rewrite !copy_hash; [done|done|].
  destruct (merkletree.ChildR node) as [h|]; simpl in *; [|done].
  unfold merkletree.wf_hash in HR. by rewrite HR.
Qed.

(** X11: after [Put] stored a node under a key of less than [2^32] bytes,
    [Get] returns a node of type 0 whose children are the node's child hashes
    (the all-zero hash for an absent child); when the node had both entry
    values, the entry that comes back is the right child (or the all-zero
    hash) followed by the all-zero hash, and otherwise there is none. *)
Theorem Put_Get_node (s : Storage) (key : option (list byte))
    (node : merkletree.Node) (db db1 : Redis) :
  merkletree.wf_node node → (N.of_nat (len key) < 2 ^ 32)%N →
  Put s key node db = (Ok tt, db1) → goes_through db1 →
  (Get s key db1).1
  = Ok (merkletree.mkNode x00
          (Some (default merkletree.HashZero (merkletree.ChildL node)))
          (Some (default merkletree.HashZero (merkletree.ChildR node)))
          match merkletree.Entry node with
          | (Some _, Some _) =>
              (Some (default merkletree.HashZero (merkletree.ChildR node)),
               Some merkletree.HashZero)
          | _ => (None, None)
          end).
Proof. apply Put_Get_fits. Qed.

Lemma Put_Get_node_witness :
  (Get s_p1 (Some K32)
     (Put s_p1 (Some K32)
        (merkletree.mkNode merkletree.NodeTypeEmpty (Some A32) None
           (Some B32, None)) db_empty).2).1
  = Ok (merkletree.mkNode x00 (Some A32) (Some merkletree.HashZero)
          (None, None)).
Proof.
  apply (Put_Get_node s_p1 (Some K32)
           (merkletree.mkNode merkletree.NodeTypeEmpty (Some A32) None
              (Some B32, None)) db_empty); by vm_compute.
Defined.

(** X12: a middle node, of type [NodeTypeMiddle] with both children and no
    entry, stored under a key of less than [2^32] bytes, comes back from [Get]
    exactly as it was. *)
Theorem Put_Get_Middle (s : Storage) (key : option (list byte))
    (l r : merkletree.Hash) (db db1 : Redis) :
  merkletree.wf_hash l → merkletree.wf_hash r →
  (N.of_nat (len key) < 2 ^ 32)%N →
  Put s key (merkletree.mkNode merkletree.NodeTypeMiddle (Some l) (Some r)
               (None, None)) db = (Ok tt, db1) →
  goes_through db1 →
  (Get s key db1).1
  = Ok (merkletree.mkNode merkletree.NodeTypeMiddle (Some l) (Some r)
          (None, None)).
Proof.
  intros Hl Hr Hk HP Hg.
  assert (Hwf : merkletree.wf_node
                  (merkletree.mkNode merkletree.NodeTypeMiddle (Some l)
                     (Some r) (None, None))) by done.
  by rewrite (Put_Get_fits _ _ _ _ _ Hwf Hk HP Hg).
Qed.

Lemma Put_Get_Middle_witness :
  (Get s_p1 (Some K32)
     (Put s_p1 (Some K32)
        (merkletree.mkNode merkletree.NodeTypeMiddle (Some A32) (Some B32)
           (None, None)) db_empty).2).1
  = Ok (merkletree.mkNode merkletree.NodeTypeMiddle (Some A32) (Some B32)
          (None, None)).
Proof.
  apply (Put_Get_Middle s_p1 (Some K32) A32 B32 db_empty); by vm_compute.
Defined.

(** X13: [Put] looks neither at the type of the node nor at the bytes of its
    entry values: two nodes with the same children that both carry two entry
    values of 32 bytes are stored as the same value, with the same result. *)
Theorem Put_ignores_type_and_entry (s : Storage) (key : option (list byte))
    (t t' : merkletree.NodeType) (l r : option merkletree.Hash)
    (e0 e1 e0' e1' : merkletree.Hash) (db : Redis) :
  merkletree.wf_hash e0 → merkletree.wf_hash e1 →
  merkletree.wf_hash e0' → merkletree.wf_hash e1' →
  Put s key (merkletree.mkNode t l r (Some e0, Some e1)) db
  = Put s key (merkletree.mkNode t' l r (Some e0', Some e1')) db.
Proof.
  unfold merkletree.wf_hash. intros H0 H1 H0' H1'. rewrite !Put_unfold.
  do 3 f_equal. unfold encoding, header, payload, entry_segment, len32, Put_item.
  cbn [Type_ Key ChildL ChildR Entry merkletree.ChildL merkletree.ChildR
       merkletree.Entry].
  by rewrite !len_Some, !length_app, H0, H1, H0', H1'.
Qed.

Lemma Put_ignores_type_and_entry_witness :
  Put s_p1 (Some K32) leafAB db_empty
  = Put s_p1 (Some K32)
      (merkletree.mkNode merkletree.NodeTypeEmpty None None (Some B32, Some K32))
      db_empty.
Proof.
  apply (Put_ignores_type_and_entry s_p1 (Some K32)); by vm_compute.
Defined.

(** X14: [Put] never panics and issues exactly one [SET], for the id of its
    key; it returns [nil] exactly when that command goes through, and then
    the keyspace differs from the one before in that id alone, which holds
    the hex form of the encoded item; whether the command goes through or not,
    every other id holds what it held before. *)
Theorem Put_effect (s : Storage) (key : option (list byte))
    (node : merkletree.Node) (db : Redis) :
  ∃ d, nodeItemToBytes (Put_item key node) = Ok d ∧
    (Put s key node db).1 ≠ Panic ∧
    ((Put s key node db).1 = Ok tt ↔ goes_through db) ∧
    log (Put s key node db).2
    = SET (getRedisNodeIdForMerkleKey s key) (hex_EncodeToString d) :: log db ∧
    (goes_through db →
     kv (Put s key node db).2
     = <[getRedisNodeIdForMerkleKey s key := hex_EncodeToString d]> (kv db)) ∧
    (∀ id, id ≠ getRedisNodeIdForMerkleKey s key →
           kv (Put s key node db).2 !! id = kv db !! id).
Proof.
  exists (encoding (Put_item key node)).
  split; [apply nodeItemToBytes_encoding|].
  rewrite Put_unfold. unfold redis_Set, goes_through.
  destruct (next_fault db) as [e|]; cbn [fst snd issue kv log];
    split_and!; try done.
  intros id Hid. by rewrite lookup_insert_ne.
Qed.

Lemma Put_effect_witness :
  (Put s_p1 (Some K32) leafAB db_empty).1 = Ok tt ∧
  kv (Put s_p1 (Some K32) leafAB db_empty).2 !! rootId s_p1
  = kv db_empty !! rootId s_p1.
Proof.
  destruct (Put_effect s_p1 (Some K32) leafAB db_empty)
    as (d & _ & _ & H & _ & _ & H').
  split; [by apply H|]. apply H'. by vm_compute.
Defined.

(** X15: a second [Put] under the same key replaces what the first one
    stored: the keyspace after both is the one the second alone would have
    produced, so that repeating a [Put] changes nothing. *)
Theorem Put_overwrites (s : Storage) (key : option (list byte))
    (n1 n2 : merkletree.Node) (db db1 db2 db' : Redis) :
  Put s key n1 db = (Ok tt, db1) → Put s key n2 db1 = (Ok tt, db2) →
  Put s key n2 db = (Ok tt, db') →
  kv db2 = kv db' ∧ (n1 = n2 → kv db2 = kv db1).
Proof.
  rewrite !Put_unfold. intros H1 H2 H'.
  destruct (redis_Set db _ (hex_EncodeToString (encoding (Put_item key n1))))
    as [[e|] d1] eqn:E1; [done|]. injection H1 as <-.
  destruct (redis_Set d1 _ _) as [[e|] d2] eqn:E2; [done|]. injection H2 as <-.
  destruct (redis_Set db _ (hex_EncodeToString (encoding (Put_item key n2))))
    as [[e|] d'] eqn:E'; [done|]. injection H' as <-.
  apply redis_Set_None in E1 as [_ E1], E2 as [_ E2], E' as [_ E'].
  rewrite E2, E', E1. rewrite insert_insert_eq. split; [done|].
  by intros ->.
Qed.

Lemma Put_overwrites_witness :
  kv (Put s_p1 (Some K32)
        (merkletree.mkNode merkletree.NodeTypeMiddle (Some A32) (Some B32)
           (None, None))
        (Put s_p1 (Some K32) leafAB db_empty).2).2
  = kv (Put s_p1 (Some K32)
          (merkletree.mkNode merkletree.NodeTypeMiddle (Some A32) (Some B32)
             (None, None)) db_empty).2.
Proof.
  apply (Put_overwrites s_p1 (Some K32) leafAB
           (merkletree.mkNode merkletree.NodeTypeMiddle (Some A32) (Some B32)
              (None, None))
           db_empty (Put s_p1 (Some K32) leafAB db_empty).2);
    by vm_compute.
Defined.

(** X16: [Put] under one key leaves what the server holds for every other key
    of the handle untouched: content keys with different bytes have
    different ids. *)
Theorem Put_other_key (s : Storage) (key key' : option (list byte))
    (node : merkletree.Node) (db : Redis) :
  bytes key ≠ bytes key' →
  getRedisNodeIdForMerkleKey s key ≠ getRedisNodeIdForMerkleKey s key' ∧
  kv (Put s key node db).2 !! getRedisNodeIdForMerkleKey s key'
  = kv db !! getRedisNodeIdForMerkleKey s key'.
Proof.
  intros Hne.
  assert (Hid : getRedisNodeIdForMerkleKey s key
                ≠ getRedisNodeIdForMerkleKey s key').
  { unfold getRedisNodeIdForMerkleKey.
    by intros ?%append_inj%hex_EncodeToString_inj. }
  split; [done|]. rewrite Put_unfold. unfold redis_Set.
  destruct (next_fault db); cbn [snd kv issue]; [done|].
  by rewrite lookup_insert_ne.
Qed.

Lemma Put_other_key_witness :
  getRedisNodeIdForMerkleKey s_p1 (Some K32)
  ≠ getRedisNodeIdForMerkleKey s_p1 (Some A32) ∧
  kv (Put s_p1 (Some K32) leafAB db_empty).2
    !! getRedisNodeIdForMerkleKey s_p1 (Some A32)
  = kv db_empty !! getRedisNodeIdForMerkleKey s_p1 (Some A32).
Proof.
  apply (Put_other_key s_p1 (Some K32) (Some A32) leafAB db_empty).
  by vm_compute.
Defined.

(** ** The ids of nodes and roots *)

Lemma hexdigit_not_underscore (v : byte) :
  hexdigit (N.shiftr (byte_to_N v) 4) ≠ "_"%char ∧
  hexdigit (N.land (byte_to_N v) 15) ≠ "_"%char.
Proof. destruct v; split; vm_compute; discriminate. Qed.

Lemma hex_no_underscore (src : list byte) (a b : string) :
  hex_EncodeToString src ≠ a +:+ "_" +:+ b.
Proof.
  revert a. induction src as [|v src IH]; intros a.
  - by destruct a.
  - destruct (hexdigit_not_underscore v) as [H1 H2].
    destruct a as [|x [|y a]]; simpl; intros [=]; try done.
    by eapply IH.
Qed.

Lemma split_at_last_underscore (p p' h h' : string) :
  (∀ a b, h ≠ a +:+ "_" +:+ b) → (∀ a b, h' ≠ a +:+ "_" +:+ b) →
  p +:+ "_" +:+ h = p' +:+ "_" +:+ h' → p = p' ∧ h = h'.
Proof.
  intros Hh Hh'. revert p'.
  induction p as [|c p IH]; intros [|c' p']; simpl; intros [=].
  - done.
  - by destruct (Hh p' h').
  - by destruct (Hh' p h).
  - destruct (IH p') as [-> ->]; [done|]. by subst.
Qed.

Lemma append_assoc' (a b c : string) : (a +:+ b) +:+ c = a +:+ (b +:+ c).
Proof.
  induction a as [|x a IH]; [done|].
  change (String x ((a +:+ b) +:+ c) = String x (a +:+ b +:+ c)).
  by rewrite IH.
Qed.

(** X17: the ids are unambiguous: two node ids are equal only for the same
    prefix and the same key bytes, two root ids only for the same prefix, and
    a root id is never a node id, whatever the prefixes. *)
Theorem ids_distinct (p p' : string) (k k' : option (list byte)) :
  (getRedisNodeIdForMerkleKey (NewMerkleRedisStorage p) k
   = getRedisNodeIdForMerkleKey (NewMerkleRedisStorage p') k' →
   p = p' ∧ bytes k = bytes k') ∧
  (rootId (NewMerkleRedisStorage p) = rootId (NewMerkleRedisStorage p') →
   p = p') ∧
  rootId (NewMerkleRedisStorage p)
  ≠ getRedisNodeIdForMerkleKey (NewMerkleRedisStorage p') k.
Proof.
  unfold getRedisNodeIdForMerkleKey, NewMerkleRedisStorage.
  cbn [nodeIdPrefix rootId]. split_and!.
  - rewrite !append_assoc'. intros H%append_inj.
    apply split_at_last_underscore in H as [-> H];
      [|intros ??; apply hex_no_underscore..].
    split; [done|]. by apply hex_EncodeToString_inj.
  - apply append_inj.
  - simpl. discriminate.
Qed.

Lemma ids_distinct_witness :
  "p1" = "p1" ∧ bytes (Some K32) = bytes (Some K32).
Proof.
  apply (ids_distinct "p1" "p1" (Some K32) (Some K32)). reflexivity.
Defined.

(** X18: nodes and roots do not overwrite each other.  [Put] on a handle of
    one instance leaves the root record of every instance as it is, and
    [SetRoot] leaves every node record as it is. *)
Theorem Put_SetRoot_separate (p p' : string) (s s' : Storage)
    (key : option (list byte)) (node : merkletree.Node)
    (hash : merkletree.Hash) (db : Redis) :
  nodeIdPrefix s = nodeIdPrefix (NewMerkleRedisStorage p) →
  rootId s' = rootId (NewMerkleRedisStorage p') →
  kv (Put s key node db).2 !! rootId s' = kv db !! rootId s' ∧
  kv (SetRoot s' hash db).2 !! getRedisNodeIdForMerkleKey s key
  = kv db !! getRedisNodeIdForMerkleKey s key.
Proof.
  intros Hs Hs'.
  assert (Hne : getRedisNodeIdForMerkleKey s key ≠ rootId s').
  { unfold getRedisNodeIdForMerkleKey. rewrite Hs, Hs'. simpl. discriminate. }
  split.
  - rewrite Put_unfold. unfold redis_Set.
    destruct (next_fault db); cbn [snd kv issue]; [done|].
    by rewrite lookup_insert_ne.
  - unfold SetRoot, redis_Set. cbn [rootId].
    destruct (next_fault db); cbn [snd kv issue]; [done|].
    by rewrite lookup_insert_ne.
Qed.

Lemma Put_SetRoot_separate_witness :
  kv (Put s_p1 (Some K32) leafAB db_empty).2 !! rootId s_p1
  = kv db_empty !! rootId s_p1 ∧
  kv (SetRoot s_p1 A32 db_empty).2 !! getRedisNodeIdForMerkleKey s_p1 (Some K32)
  = kv db_empty !! getRedisNodeIdForMerkleKey s_p1 (Some K32).
Proof.
  apply (Put_SetRoot_separate "p1" "p1" s_p1 s_p1); reflexivity.
Defined.

(** ** The root tracker *)

Lemma GetRoot_hit s c db :
  currentRoot s = Some c → merkletree.wf_hash c → GetRoot s db = (Ok c, s, db).
Proof. intros Hc Hwf. unfold GetRoot. rewrite Hc. by rewrite copy_hash. Qed.

Lemma GetRoot_miss s db v :
  currentRoot s = None → goes_through db → kv db !! rootId s = Some v →
  GetRoot s db
  = match hex_DecodeString v with
    | None => (Err (Errorf "corrupt root hex"), s, issue (GET (rootId s)) db)
    | Some d =>
        (Ok (copy merkletree.HashZero d),
         mkStorage (nodeIdPrefix s) (rootId s)
           (Some (copy merkletree.HashZero d)),
         issue (GET (rootId s)) db)
    end.
Proof.
  intros Hc Hg Hv. unfold GetRoot. rewrite Hc.
  rewrite (redis_Get_goes_through _ _ _ Hg Hv). cbn [cmd_Err cmd_Val].
  destruct (hex_DecodeString v) as [d|]; [|done].
  cbn [default from_option id].
  by rewrite (copy_hash _ (copy _ d)) by (by rewrite length_copy).
Qed.

(** X19: on a handle with an empty cache, [GetRoot] returns [ErrNotFound] when
    the server holds no root for the instance, and the error of the client
    when the read fails ([ErrNotFound] for [redis.Nil]); a stored value of odd
    length gives "corrupt root hex".  In all these cases the cache stays
    empty. *)
Theorem GetRoot_errors (s : Storage) (db : Redis) :
  currentRoot s = None →
  (goes_through db → kv db !! rootId s = None →
   (GetRoot s db).1 = (Err merkletree_ErrNotFound, s)) ∧
  (∀ e, next_fault db = Some e →
        (GetRoot s db).1
        = (Err (match e with redis_Nil => merkletree_ErrNotFound | _ => e end),
           s)) ∧
  (∀ v, goes_through db → kv db !! rootId s = Some v →
        Nat.odd (String.length v) = true →
        (GetRoot s db).1 = (Err (Errorf "corrupt root hex"), s)).
Proof.
  intros Hc. split_and!.
  - unfold GetRoot, redis_Get, goes_through. rewrite Hc. intros -> Hkv.
    cbn [issue kv]. by rewrite Hkv.
  - unfold GetRoot, redis_Get. rewrite Hc. intros e ->. by destruct e.
  - intros v Hg Hv Hodd. rewrite (GetRoot_miss _ _ _ Hc Hg Hv).
    by rewrite hex_DecodeString_odd.
Qed.

Lemma GetRoot_errors_witness :
  (GetRoot s_p1 db_empty).1 = (Err merkletree_ErrNotFound, s_p1) ∧
  (GetRoot s_p1 db_down).1 = (Err (redis_Err "connection refused"), s_p1).
Proof.
  destruct (GetRoot_errors s_p1 db_empty eq_refl) as (H1 & _).
  destruct (GetRoot_errors s_p1 db_down eq_refl) as (_ & H2 & _).
  split; [by apply H1|by apply (H2 _ eq_refl)].
Defined.

(** X20: on a cache miss [GetRoot] returns the first 32 bytes of the stored
    value, padded with zero bytes when the value is shorter, and caches
    exactly what it returns; a stored 32-byte hash comes back unchanged. *)
Theorem GetRoot_reads_store (s : Storage) (db : Redis) (d : list byte) :
  currentRoot s = None → goes_through db →
  kv db !! rootId s = Some (hex_EncodeToString d) →
  ∃ h, GetRoot s db
       = (Ok h, mkStorage (nodeIdPrefix s) (rootId s) (Some h),
          issue (GET (rootId s)) db) ∧
       h = take 32 d ++ replicate (32 - length d) x00 ∧
       merkletree.wf_hash h ∧
       (merkletree.wf_hash d → h = d).
Proof.
  intros Hc Hg Hv. rewrite (GetRoot_miss _ _ _ Hc Hg Hv).
  rewrite hex_DecodeString_EncodeToString. eexists. split_and!; [done|..].
  - unfold copy, merkletree.HashZero, merkletree.ElemBytesLen.
    by rewrite length_replicate, drop_replicate.
  - unfold merkletree.wf_hash. by rewrite length_copy.
  - intros Hd. by apply copy_hash.
Qed.

Lemma GetRoot_reads_store_witness :
  ∃ h, GetRoot s_p1 (mkRedis {[rootId s_p1 := "0102"]} [] [])
       = (Ok h, mkStorage (nodeIdPrefix s_p1) (rootId s_p1) (Some h),
          issue (GET (rootId s_p1)) (mkRedis {[rootId s_p1 := "0102"]} [] [])) ∧
       h = take 32 [x01; x02] ++ replicate (32 - length [x01; x02]) x00.
Proof.
  destruct (GetRoot_reads_store s_p1 (mkRedis {[rootId s_p1 := "0102"]} [] [])
              [x01; x02]) as (h & H1 & H2 & _); [by vm_compute..|].
  by exists h.
Defined.

Lemma GetRoot_cases s db :
  merkletree.wf_ptr (currentRoot s) →
  (∃ e, GetRoot s db = (Err e, s, (GetRoot s db).2)) ∨
  (∃ h, merkletree.wf_hash h ∧
        GetRoot s db
        = (Ok h, mkStorage (nodeIdPrefix s) (rootId s) (Some h),
           (GetRoot s db).2) ∧
        (∀ c, currentRoot s = Some c → h = c ∧ (GetRoot s db).2 = db)).
Proof.
  intros Hwf. destruct (currentRoot s) as [c|] eqn:Hc.
  - right. exists c. rewrite (GetRoot_hit _ _ _ Hc Hwf). split_and!; [done| |].
    + destruct s; simpl in *; by subst.
    + by intros ? [= <-].
  - unfold GetRoot, redis_Get. rewrite Hc.
    destruct (next_fault db) as [e|]; [left; destruct e; by eexists|].
    cbn [issue kv cmd_Err cmd_Val].
    destruct (kv db !! rootId s) as [v|]; [|left; by eexists].
    cbn [cmd_Err cmd_Val].
    destruct (hex_DecodeString v) as [d|]; [|left; by eexists].
    right. exists (copy merkletree.HashZero d).
    cbn [default from_option id].
    rewrite (copy_hash _ (copy _ d)) by (by rewrite length_copy).
    split_and!; [|done|done]. unfold merkletree.wf_hash.
    by rewrite length_copy.
Qed.

(** X21: [GetRoot] keeps the handle well formed: it never panics and never
    changes the handle's prefix or root id; a hash it returns has 32 bytes
    and is the one the cache holds afterwards; when it fails the cache is as
    before. *)
Theorem GetRoot_invariant (s : Storage) (db : Redis) :
  merkletree.wf_ptr (currentRoot s) →
  (GetRoot s db).1.1 ≠ Panic ∧
  nodeIdPrefix (GetRoot s db).1.2 = nodeIdPrefix s ∧
  rootId (GetRoot s db).1.2 = rootId s ∧
  merkletree.wf_ptr (currentRoot (GetRoot s db).1.2) ∧
  (∀ h, (GetRoot s db).1.1 = Ok h →
        merkletree.wf_hash h ∧ currentRoot (GetRoot s db).1.2 = Some h) ∧
  (∀ e, (GetRoot s db).1.1 = Err e → (GetRoot s db).1.2 = s).
Proof.
  intros Hwf.
  destruct (GetRoot_cases s db Hwf) as [[e ->]|(h & Hh & -> & _)];
    cbn [fst snd nodeIdPrefix rootId currentRoot]; split_and!; try done.
  by intros ? [= <-].
Qed.

Lemma GetRoot_invariant_witness :
  (GetRoot s_p1 db_empty).1.1 ≠ Panic ∧
  nodeIdPrefix (GetRoot s_p1 db_empty).1.2 = nodeIdPrefix s_p1.
Proof.
  destruct (GetRoot_invariant s_p1 db_empty) as (H1 & H2 & _); [done|].
  by split.
Defined.

(** X22: once [GetRoot] has returned a hash on a handle, every later [GetRoot]
    on that handle returns the same hash and issues no command, whatever the
    server holds by then: the cache is never refreshed from the server. *)
Theorem GetRoot_sticky (s s1 : Storage) (db db1 db2 : Redis)
    (h : merkletree.Hash) :
  merkletree.wf_ptr (currentRoot s) →
  GetRoot s db = (Ok h, s1, db1) → GetRoot s1 db2 = (Ok h, s1, db2).
Proof.
  intros Hwf HG.
  destruct (GetRoot_cases s db Hwf) as [[e He]|(h' & Hh & He & _)];
    rewrite He in HG; [done|].
  injection HG as <- <- _. by apply GetRoot_hit.
Qed.

Lemma GetRoot_sticky_witness :
  GetRoot (GetRoot s_p1 (SetRoot s_p1 A32 db_empty).2).1.2 db_empty
  = (Ok A32, (GetRoot s_p1 (SetRoot s_p1 A32 db_empty).2).1.2, db_empty).
Proof.
  apply (GetRoot_sticky s_p1 _ (SetRoot s_p1 A32 db_empty).2
           (GetRoot s_p1 (SetRoot s_p1 A32 db_empty).2).2); by vm_compute.
Defined.

(** X23: [SetRoot] never panics, never changes the handle's prefix or root
    id, and issues exactly one [SET]: the hex form of the hash under the root
    id.  It returns [nil] exactly when that command goes through, and then
    the keyspace differs from the one before in the root id alone. *)
Theorem SetRoot_effect (s : Storage) (hash : merkletree.Hash) (db : Redis) :
  (SetRoot s hash db).1.1 ≠ Panic ∧
  nodeIdPrefix (SetRoot s hash db).1.2 = nodeIdPrefix s ∧
  rootId (SetRoot s hash db).1.2 = rootId s ∧
  ((SetRoot s hash db).1.1 = Ok tt ↔ goes_through db) ∧
  log (SetRoot s hash db).2
  = SET (rootId s) (hex_EncodeToString hash) :: log db ∧
  (goes_through db →
   kv (SetRoot s hash db).2
   = <[rootId s := hex_EncodeToString hash]> (kv db)) ∧
  (¬ goes_through db → kv (SetRoot s hash db).2 = kv db).
Proof.
  unfold SetRoot, redis_Set, goes_through. cbn [rootId].
  destruct (next_fault db) as [e|];
    cbn [fst snd issue kv log nodeIdPrefix rootId]; split_and!; done.
Qed.

Lemma SetRoot_effect_witness :
  (SetRoot s_p1 A32 db_empty).1.1 = Ok tt ∧
  kv (SetRoot s_p1 A32 db_down).2 = kv db_down.
Proof.
  destruct (SetRoot_effect s_p1 A32 db_empty) as (_ & _ & _ & H & _).
  destruct (SetRoot_effect s_p1 A32 db_down) as (_ & _ & _ & _ & _ & _ & H').
  split; [by apply H|by apply H'].
Defined.

(** X24: a [SetRoot] whose write fails returns the wrapped error, and from
    then on the handle answers [GetRoot] with the new hash from its cache,
    without a command, whatever the server holds.  On the same server a
    handle with an empty cache for the same root id gets [ErrNotFound] when no
    root is stored, and the stored hash when one is: the two handles then
    disagree unless that is the new hash. *)
Theorem SetRoot_failure_diverges (s s2 : Storage) (hash h' : merkletree.Hash)
    (db db2 : Redis) (e : error) :
  merkletree.wf_hash hash → merkletree.wf_ptr (currentRoot s) →
  next_fault db = Some e →
  (SetRoot s hash db).1.1
  = Err (storageError e "failed to update current root hash") ∧
  GetRoot (SetRoot s hash db).1.2 db2
  = (Ok hash, (SetRoot s hash db).1.2, db2) ∧
  (currentRoot s2 = None → rootId s2 = rootId s → goes_through db2 →
   (kv db2 !! rootId s = None →
    (GetRoot s2 db2).1.1 = Err merkletree_ErrNotFound) ∧
   (merkletree.wf_hash h' →
    kv db2 !! rootId s = Some (hex_EncodeToString h') →
    (GetRoot s2 db2).1.1 = Ok h')).
Proof.
  intros Hh Hs He.
  destruct (SetRoot_cache s hash db Hh Hs) as (Hc & _ & _).
  split_and!.
  - unfold SetRoot. by rewrite (redis_Set_fault _ _ _ _ He).
  - by apply GetRoot_hit.
  - intros Hc2 Hid Hg. rewrite <- Hid. split.
    + intros Hnone. unfold GetRoot, redis_Get. rewrite Hc2.
      unfold goes_through in Hg. rewrite Hg. cbn [issue kv].
      by rewrite Hnone.
    + intros Hh' Hkv. rewrite (GetRoot_miss _ _ _ Hc2 Hg Hkv).
      rewrite hex_DecodeString_EncodeToString. cbn [fst].
      by rewrite copy_hash.
Qed.

Lemma SetRoot_failure_diverges_witness :
  (SetRoot s_p1 A32 db_down).1.1
  = Err (storageError (redis_Err "connection refused")
           "failed to update current root hash") ∧
  GetRoot (SetRoot s_p1 A32 db_down).1.2 db_empty
  = (Ok A32, (SetRoot s_p1 A32 db_down).1.2, db_empty) ∧
  (GetRoot s_p1 db_empty).1.1 = Err merkletree_ErrNotFound.
Proof.
  destruct (SetRoot_failure_diverges s_p1 s_p1 A32 B32 db_down db_empty
              (redis_Err "connection refused")) as (H1 & H2 & H3);
    [by vm_compute..|].
  split_and!; [exact H1|exact H2|]. apply H3; by vm_compute.
Defined.
